(** * css_loader.js: the dynamic stylesheet loader

    A shallow embedding of [css_loader.js] (functions [loadCSS],
    [autoLoadPageCSS], [loadGenericCSS], [init]) together with a small model
    of the part of the browser the script talks to: the document's elements,
    [document.readyState], [window.location.pathname], the console, the
    [DOMContentLoaded] listeners and the [load]/[error] events of the link
    elements.

    The asynchronous functions are written as command trees ([prog]); an
    [await] is sequencing ([seq]), a pending promise is a continuation that
    the platform resumes when it fires the link's event.  A function runs
    without interruption from one suspension to the next, as a script does
    between two events; awaiting a promise that is settled already goes on
    in the same run.  Strings are sequences of 8-bit characters. *)

From Stdlib Require Import List String Ascii Bool Arith Lia.
From Stdlib Require Import DecimalString DecimalNat.
Import ListNotations.
Local Open Scope string_scope.
Local Open Scope list_scope.

Set Implicit Arguments.

(* ------------------------------------------------------------------ *)
(** ** The string operations of JavaScript the script uses *)

Module JS.

(** [s.split(sep)] for a one-character separator: the pieces between the
    separators, in order; the result always has a last piece. *)
Fixpoint split_acc (sep : ascii) (cur : string) (s : string) : list string :=
  match s with
  | EmptyString => [cur]
  | String c rest =>
      if Ascii.eqb c sep
      then cur :: split_acc sep EmptyString rest
      else split_acc sep (cur ++ String c EmptyString) rest
  end.

Definition split (sep : ascii) (s : string) : list string :=
  split_acc sep EmptyString s.

(** [arr.pop()]: the last element, [undefined] ([None]) on an empty array. *)
Fixpoint pop (l : list string) : option string :=
  match l with
  | [] => None
  | [x] => Some x
  | _ :: tl => pop tl
  end.

(** [s.startsWith(pat)]. *)
Fixpoint startsWith (pat s : string) : bool :=
  match pat, s with
  | EmptyString, _ => true
  | String a pat', String b s' => Ascii.eqb a b && startsWith pat' s'
  | String _ _, EmptyString => false
  end.

Fixpoint drop (n : nat) (s : string) : string :=
  match n, s with
  | O, _ => s
  | S n', String _ s' => drop n' s'
  | S _, EmptyString => EmptyString
  end.

(** [s.replace(pat, rep)] with a string pattern: only the FIRST occurrence
    of [pat], wherever it is, is replaced.  (The replacement used by the
    script is the empty string, so the [$]-patterns of a replacement do not
    arise.) *)
Fixpoint replace (pat rep : string) (s : string) : string :=
  if startsWith pat s then rep ++ drop (String.length pat) s
  else match s with
       | EmptyString => EmptyString
       | String c rest => String c (replace pat rep rest)
       end.

(** [s.endsWith(pat)], for the specification's reading of the page name. *)
Fixpoint endsWith (pat s : string) : bool :=
  String.eqb pat s ||
  match s with
  | EmptyString => false
  | String _ rest => endsWith pat rest
  end.

(** The first [n] characters of [s]. *)
Fixpoint take (n : nat) (s : string) : string :=
  match n, s with
  | O, _ => EmptyString
  | S n', String c s' => String c (take n' s')
  | S _, EmptyString => EmptyString
  end.

(** A template literal's [${i}] for a number: decimal digits. *)
Definition decimal (i : nat) : string :=
  NilEmpty.string_of_uint (Nat.to_uint i).

(** Truthiness of an optional string argument: [undefined] and the empty
    string are falsy. *)
Definition truthy (id : option string) : bool :=
  match id with
  | None => false
  | Some s => negb (String.eqb s "")
  end.

End JS.

(* ------------------------------------------------------------------ *)
(** ** The browser, as far as the script uses it *)

(** An element of the document.  [createElement('link')] yields an element
    with tag [link] and no attribute; the script then assigns [rel], [type],
    [href] and, for a truthy [id] argument, [id]. *)
Record element : Type := mkElement {
  tagName : string;
  rel     : string;
  type_   : string;
  href    : string;
  el_id   : option string
}.

Definition has_id (i : string) (e : element) : bool :=
  match el_id e with
  | Some j => String.eqb i j
  | None => false
  end.

(** [document.getElementById(i)]: the first element whose identifier is [i];
    the empty string is no identifier. *)
Definition getElementById (i : string) (doc : list element) : option element :=
  if String.eqb i "" then None else find (has_id i) doc.

(** How many elements of the document carry identifier [i]. *)
Definition count_id (i : string) (doc : list element) : nat :=
  List.length (filter (has_id i) doc).

Inductive ready_state : Type := Loading | Interactive | Complete.

Definition is_loading (r : ready_state) : bool :=
  match r with Loading => true | _ => false end.

(** What the platform reports for an inserted link element. *)
Inductive outcome : Type := Load | Error.

Inductive js_error : Type :=
| JsError (message : string)        (* [new Error(message)] *)
| TypeError (message : string).

Definition error_message (e : js_error) : string :=
  match e with JsError m => m | TypeError m => m end.

Inductive level : Type := LogLevel | WarnLevel | ErrorLevel.

(** One console call: its level and its arguments. *)
Definition log_entry : Type := (level * list string)%type.

(** Command trees: the effects of the script, each with the rest of the
    computation.  [Await n k] suspends the running function until the
    platform fires [load] or [error] on the element inserted at position [n];
    [Call p k] calls the asynchronous function [p] without awaiting its
    promise. *)
Inductive prog : Type :=
| Ret
| Throw (e : js_error)
| GetElementById (i : string) (k : option element -> prog)
| AppendChild (el : element) (k : nat -> prog)
| Await (n : nat) (k : outcome -> prog)
| Console (lv : level) (args : list string) (k : prog)
| GetPathname (k : string -> prog)
| GetReadyState (k : ready_state -> prog)
| AddDOMContentLoaded (listener : prog) (k : prog)
| Call (p : prog) (k : prog).

(** [p; q] where [p] is awaited: [q] starts when [p] has completed. *)
Fixpoint seq (p q : prog) : prog :=
  match p with
  | Ret => q
  | Throw e => Throw e
  | GetElementById i k => GetElementById i (fun r => seq (k r) q)
  | AppendChild el k => AppendChild el (fun n => seq (k n) q)
  | Await n k => Await n (fun o => seq (k o) q)
  | Console lv args k => Console lv args (seq k q)
  | GetPathname k => GetPathname (fun s => seq (k s) q)
  | GetReadyState k => GetReadyState (fun r => seq (k r) q)
  | AddDOMContentLoaded l k => AddDOMContentLoaded l (seq k q)
  | Call p' k => Call p' (seq k q)
  end.

(** [try { p } catch (e) { h e }]; a rejection of an un-awaited call is not
    caught. *)
Fixpoint try_catch (p : prog) (h : js_error -> prog) : prog :=
  match p with
  | Ret => Ret
  | Throw e => h e
  | GetElementById i k => GetElementById i (fun r => try_catch (k r) h)
  | AppendChild el k => AppendChild el (fun n => try_catch (k n) h)
  | Await n k => Await n (fun o => try_catch (k o) h)
  | Console lv args k => Console lv args (try_catch k h)
  | GetPathname k => GetPathname (fun s => try_catch (k s) h)
  | GetReadyState k => GetReadyState (fun r => try_catch (k r) h)
  | AddDOMContentLoaded l k => AddDOMContentLoaded l (try_catch k h)
  | Call p' k => Call p' (try_catch k h)
  end.

Declare Scope prog_scope.
Delimit Scope prog_scope with prog.
Bind Scope prog_scope with prog.
Notation "p ;; q" := (seq p q) (at level 61, right associativity) : prog_scope.
Notation "x <- c ;; k" := (c (fun x => k))
  (at level 61, c at next level, right associativity) : prog_scope.

(** The state of the page. *)
Record world : Type := mkWorld {
  readyState : ready_state;
  pathname   : string;                          (* window.location.pathname *)
  document   : list element;                    (* in insertion order *)
  listeners  : list prog;                       (* DOMContentLoaded listeners *)
  waiting    : list (nat * (outcome -> prog));  (* handlers of inserted links *)
  unhandled  : list js_error;                   (* rejections nobody awaits *)
  console    : list log_entry
}.

Definition set_readyState (r : ready_state) (w : world) : world :=
  mkWorld r (pathname w) (document w) (listeners w) (waiting w) (unhandled w)
          (console w).

Definition appendChild (el : element) (w : world) : world :=
  mkWorld (readyState w) (pathname w) (document w ++ [el]) (listeners w)
          (waiting w) (unhandled w) (console w).

Definition add_listener (l : prog) (w : world) : world :=
  mkWorld (readyState w) (pathname w) (document w) (listeners w ++ [l])
          (waiting w) (unhandled w) (console w).

Definition set_waiting (ws : list (nat * (outcome -> prog))) (w : world) : world :=
  mkWorld (readyState w) (pathname w) (document w) (listeners w) ws
          (unhandled w) (console w).

Definition add_unhandled (e : js_error) (w : world) : world :=
  mkWorld (readyState w) (pathname w) (document w) (listeners w) (waiting w)
          (unhandled w ++ [e]) (console w).

Definition write_console (lv : level) (args : list string) (w : world) : world :=
  mkWorld (readyState w) (pathname w) (document w) (listeners w) (waiting w)
          (unhandled w) (console w ++ [(lv, args)]).

(** Where a function stands when it gives control back. *)
Inductive status : Type :=
| Done                                  (* its promise is resolved *)
| Failed (e : js_error)                 (* its promise is rejected *)
| Waiting (n : nat) (k : outcome -> prog).  (* pending on link [n] *)

(** The promise of a call nobody awaits: a pending one keeps its handler on
    the link, a rejected one is an unhandled rejection. *)
Definition detach (s : status) (w : world) : world :=
  match s with
  | Done => w
  | Failed e => add_unhandled e w
  | Waiting n k => set_waiting (waiting w ++ [(n, k)]) w
  end.

(** Runs [p] until it completes or suspends. *)
Fixpoint exec (p : prog) (w : world) : world * status :=
  match p with
  | Ret => (w, Done)
  | Throw e => (w, Failed e)
  | GetElementById i k => exec (k (getElementById i (document w))) w
  | AppendChild el k => exec (k (List.length (document w))) (appendChild el w)
  | Await n k => (w, Waiting n k)
  | Console lv args k => exec k (write_console lv args w)
  | GetPathname k => exec (k (pathname w)) w
  | GetReadyState k => exec (k (readyState w)) w
  | AddDOMContentLoaded l k => exec k (add_listener l w)
  | Call p' k => let (w1, s) := exec p' w in exec k (detach s w1)
  end.

(** A call from a script that does not await the result. *)
Definition start (p : prog) (w : world) : world :=
  let (w1, s) := exec p w in detach s w1.

(** The awaited function [r] is resumed with the successive outcomes [os] of
    the links it waits for. *)
Fixpoint drive (os : list outcome) (r : world * status) : world * status :=
  match os, r with
  | o :: os', (w, Waiting _ k) => drive os' (exec (k o) w)
  | _, _ => r
  end.

(** Platform events. *)
Inductive event : Type :=
| LinkEvent (n : nat) (o : outcome)   (* [load] or [error] on element [n] *)
| DOMContentLoaded.

(** Removes the first handler registered for link [n]. *)
Fixpoint take_handler (n : nat) (ws : list (nat * (outcome -> prog)))
  : option ((outcome -> prog) * list (nat * (outcome -> prog))) :=
  match ws with
  | [] => None
  | (m, k) :: rest =>
      if Nat.eqb m n then Some (k, rest)
      else match take_handler n rest with
           | Some (k', rest') => Some (k', (m, k) :: rest')
           | None => None
           end
  end.

(** Calls the listeners in registration order. *)
Definition dispatch (ls : list prog) (w : world) : world :=
  fold_left (fun w' l => start l w') ls w.

(** The platform fires an event: a link event runs the handler of that link
    (once; nothing happens without one), [DOMContentLoaded] is dispatched when
    the document leaves the loading state and not again. *)
Definition fire (ev : event) (w : world) : world :=
  match ev with
  | LinkEvent n o =>
      match take_handler n (waiting w) with
      | Some (k, rest) => start (k o) (set_waiting rest w)
      | None => w
      end
  | DOMContentLoaded =>
      if is_loading (readyState w)
      then dispatch (listeners w) (set_readyState Interactive w)
      else w
  end.

Definition fires (evs : list event) (w : world) : world :=
  fold_left (fun w' ev => fire ev w') evs w.

(* ------------------------------------------------------------------ *)
(** ** The script *)

Local Open Scope prog_scope.

(** Lines 24-31: the link element [loadCSS] creates; the [id] is assigned for
    a truthy [id] argument only. *)
Definition link_element (cssPath : string) (id : option string) : element :=
  {| tagName := "link";
     rel := "stylesheet";
     type_ := "text/css";
     href := cssPath;
     el_id := if JS.truthy id then id else None |}.

(** Lines 34-42: the handlers of the link. *)
Definition on_event (cssPath : string) (o : outcome) : prog :=
  match o with
  | Load =>
      Console LogLevel ["CSS loaded successfully:"; cssPath] Ret
  | Error =>
      Console WarnLevel ["Failed to load CSS:"; cssPath]
        (Throw (JsError ("Failed to load CSS: " ++ cssPath)%string))
  end.

(** Lines 23-45: create the link, append it to the head, settle on its
    event. *)
Definition insert_link (cssPath : string) (id : option string) : prog :=
  n <- AppendChild (link_element cssPath id) ;;
  o <- Await n ;;
  on_event cssPath o.

Definition loadCSS (cssPath : string) (id : option string) : prog :=
  match id with
  | Some i =>
      if JS.truthy id
      then found <- GetElementById i ;;
           match found with
           | Some _ => Ret
           | None => insert_link cssPath id
           end
      else insert_link cssPath id
  | None => insert_link cssPath id
  end.

(** [path.split('/').pop().replace('.html', '')]; [None] stands for the
    TypeError of calling [replace] on [undefined]. *)
Definition pageName_of (path : string) : option string :=
  match JS.pop (JS.split "/" path) with
  | Some segment => Some (JS.replace ".html" "" segment)
  | None => None
  end.

Definition autoLoadPageCSS : prog :=
  path <- GetPathname ;;
  match pageName_of path with
  | None => Throw (TypeError "undefined has no property replace")
  | Some pageName =>
      if JS.truthy (Some pageName) && negb (String.eqb pageName "")
      then
        let cssPath := ("./" ++ pageName ++ ".css")%string in
        try_catch
          (loadCSS cssPath (Some ("page-css-" ++ pageName)%string) ;;
           Console LogLevel [("Page-specific CSS loaded for: " ++ pageName)%string] Ret)
          (fun _ =>
             Console LogLevel [("No page-specific CSS found for: " ++ pageName)%string] Ret)
      else Ret
  end.

Definition commonCSSFiles : list string := ["style.css"].

(** The [for] loop of [loadGenericCSS] from index [i] on, [files] being the
    candidates not yet tried: [break] after a success, [continue] after a
    failure. *)
Fixpoint loadGenericCSS_from (files : list string) (i : nat) : prog :=
  match files with
  | [] => Ret
  | cssFile :: rest =>
      try_catch
        (loadCSS ("./" ++ cssFile)%string
                 (Some ("generic-css-" ++ JS.decimal i)%string) ;;
         Console LogLevel [("Generic CSS loaded: " ++ cssFile)%string] Ret)
        (fun _ => loadGenericCSS_from rest (S i))
  end.

Definition loadGenericCSS : prog := loadGenericCSS_from commonCSSFiles 0.

(** The combined sequence of [init], over any candidate list. *)
Definition loadAllCSS_with (files : list string) : prog :=
  try_catch
    (loadGenericCSS_from files 0 ;;
     autoLoadPageCSS ;;
     Console LogLevel ["CSS loading complete"] Ret)
    (fun error =>
       Console ErrorLevel ["Error during CSS loading:"; error_message error] Ret).

Definition loadAllCSS : prog := loadAllCSS_with commonCSSFiles.

Definition init : prog :=
  r <- GetReadyState ;;
  if is_loading r
  then AddDOMContentLoaded loadAllCSS Ret
  else Call loadAllCSS Ret.

(** The page name as the specification words it: the last path segment with
    a [.html] suffix stripped if present. *)
Definition strip_suffix (suffix s : string) : string :=
  if JS.endsWith suffix s
  then JS.take (String.length s - String.length suffix) s
  else s.

Definition spec_pageName (path : string) : option string :=
  match JS.pop (JS.split "/" path) with
  | Some segment => Some (strip_suffix ".html" segment)
  | None => None
  end.

(** An empty page on which nothing has happened yet. *)
Definition blank_page (r : ready_state) (path : string) : world :=
  mkWorld r path [] [] [] [] [].

(** The test of line 18: [id && document.getElementById(id)]. *)
Definition already_loaded (id : option string) (doc : list element) : bool :=
  match id with
  | Some i =>
      JS.truthy id &&
      match getElementById i doc with Some _ => true | None => false end
  | None => false
  end.

(** The identifier and the link of candidate number [i] of [loadGenericCSS]. *)
Definition generic_id (i : nat) : string := "generic-css-" ++ JS.decimal i.

Fixpoint generic_links (files : list string) (i : nat) : list element :=
  match files with
  | [] => []
  | cssFile :: rest =>
      link_element ("./" ++ cssFile)%string (Some (generic_id i))
      :: generic_links rest (S i)
  end.

(** The public API, [window.CSSLoader], called by a script that does not
    await the result, and the histories of a page: API calls and platform
    events in any order. *)
Inductive api_call : Type :=
| CallLoad (cssPath : string) (id : option string)
| CallAutoLoad
| CallLoadGeneric
| CallInit.

Definition api_prog (c : api_call) : prog :=
  match c with
  | CallLoad cssPath id => loadCSS cssPath id
  | CallAutoLoad => autoLoadPageCSS
  | CallLoadGeneric => loadGenericCSS
  | CallInit => init
  end.

Inductive action : Type :=
| Api (c : api_call)
| Platform (ev : event).

Definition act (a : action) (w : world) : world :=
  match a with
  | Api c => start (api_prog c) w
  | Platform ev => fire ev w
  end.

Definition run (acts : list action) (w : world) : world :=
  fold_left (fun w' a => act a w') acts w.

(** A status that is a rejection. *)
Definition rejected (s : status) : bool :=
  match s with Failed _ => true | _ => false end.

(** What the specification's reading of [autoLoadPageCSS] inserts into a
    document without elements: the link for [spec_pageName]. *)
Definition spec_page_links (path : string) : list element :=
  match spec_pageName path with
  | Some name =>
      if String.eqb name "" then []
      else [link_element ("./" ++ name ++ ".css")%string
                         (Some ("page-css-" ++ name)%string)]
  | None => []
  end.

(* ------------------------------------------------------------------ *)
(** ** Disciplines of command trees

    Four properties of the way a function uses its effects, each preserved by
    [seq] and [try_catch], and each established for the script below. *)

(** [settles c p]: [p] rejects only where [c] allows it ([c = true] inside a
    [try]), and the calls it does not await never reject. *)
Inductive settles : bool -> prog -> Prop :=
| settles_Ret c : settles c Ret
| settles_Throw e : settles true (Throw e)
| settles_Get c i k : (forall r, settles c (k r)) -> settles c (GetElementById i k)
| settles_Append c el k : (forall n, settles c (k n)) -> settles c (AppendChild el k)
| settles_Await c n k : (forall o, settles c (k o)) -> settles c (Await n k)
| settles_Console c lv args k : settles c k -> settles c (Console lv args k)
| settles_Path c k : (forall s, settles c (k s)) -> settles c (GetPathname k)
| settles_Ready c k : (forall r, settles c (k r)) -> settles c (GetReadyState k)
| settles_Listen c l k :
    settles false l -> settles c k -> settles c (AddDOMContentLoaded l k)
| settles_Call c p k : settles false p -> settles c k -> settles c (Call p k).

(** [within n p]: [p] suspends at most [n] times before it completes. *)
Inductive within : nat -> prog -> Prop :=
| within_Ret n : within n Ret
| within_Throw n e : within n (Throw e)
| within_Get n i k : (forall r, within n (k r)) -> within n (GetElementById i k)
| within_Append n el k : (forall m, within n (k m)) -> within n (AppendChild el k)
| within_Await n m k : (forall o, within n (k o)) -> within (S n) (Await m k)
| within_Console n lv args k : within n k -> within n (Console lv args k)
| within_Path n k : (forall s, within n (k s)) -> within n (GetPathname k)
| within_Ready n k : (forall r, within n (k r)) -> within n (GetReadyState k)
| within_Listen n l k : within n k -> within n (AddDOMContentLoaded l k)
| within_Call n p k : within n k -> within n (Call p k).

(** [checked absent p]: [p] appends an element with an identifier only when
    a lookup of that identifier, in the same uninterrupted run, found
    nothing; [absent] are the identifiers so looked up. *)
Inductive checked : list string -> prog -> Prop :=
| checked_Ret a : checked a Ret
| checked_Throw a e : checked a (Throw e)
| checked_Get a i k :
    (forall e, checked a (k (Some e))) -> checked (i :: a) (k None) ->
    checked a (GetElementById i k)
| checked_Append a el k :
    (forall i, el_id el = Some i -> In i a) ->
    (forall n, checked [] (k n)) -> checked a (AppendChild el k)
| checked_Await a n k : (forall o, checked [] (k o)) -> checked a (Await n k)
| checked_Console a lv args k : checked a k -> checked a (Console lv args k)
| checked_Path a k : (forall s, checked a (k s)) -> checked a (GetPathname k)
| checked_Ready a k : (forall r, checked a (k r)) -> checked a (GetReadyState k)
| checked_Listen a l k :
    checked [] l -> checked a k -> checked a (AddDOMContentLoaded l k)
| checked_Call a p k : checked a p -> checked [] k -> checked a (Call p k).

(** [serial p]: [p] awaits the event of each element it appends before it
    does anything else, and awaits nothing else; it calls nothing without
    awaiting it. *)
Inductive serial : prog -> Prop :=
| serial_Ret : serial Ret
| serial_Throw e : serial (Throw e)
| serial_Get i k : (forall r, serial (k r)) -> serial (GetElementById i k)
| serial_Append el k k' :
    (forall n, k n = Await n (k' n)) -> (forall n o, serial (k' n o)) ->
    serial (AppendChild el k)
| serial_Console lv args k : serial k -> serial (Console lv args k)
| serial_Path k : (forall s, serial (k s)) -> serial (GetPathname k)
| serial_Ready k : (forall r, serial (k r)) -> serial (GetReadyState k).

(** The handlers and listeners of a page all obey a discipline. *)
Definition handlers_all (P : prog -> Prop) (w : world) : Prop :=
  Forall P (listeners w) /\
  Forall (fun h => forall o, P (snd h o)) (waiting w).

(** A page on which no other script has left a listener or a handler. *)
Definition quiescent (w : world) : Prop :=
  listeners w = [] /\ waiting w = [].

(** What a discipline says of the status a function stops with. *)
Definition status_settles (c : bool) (s : status) : Prop :=
  match s with
  | Done => True
  | Failed _ => c = true
  | Waiting _ k => forall o, settles c (k o)
  end.

Definition status_within (n : nat) (s : status) : Prop :=
  match s with
  | Waiting _ k => exists n', n = S n' /\ forall o, within n' (k o)
  | _ => True
  end.

Definition is_waiting (s : status) : bool :=
  match s with Waiting _ _ => true | _ => false end.

(** No element carries the identifier of a candidate from number [i] on. *)
Definition fresh_from (i : nat) (doc : list element) : Prop :=
  forall j, i <= j -> getElementById (generic_id j) doc = None.

(** A function that stops pending leaves a handler that obeys [P]. *)
Definition status_all (P : prog -> Prop) (s : status) : Prop :=
  match s with
  | Waiting _ k => forall o, P (k o)
  | _ => True
  end.

(** The document has not gained a second element with identifier [id]. *)
Definition no_second (id : string) (doc doc' : list element) : Prop :=
  count_id id doc' <= Nat.max 1 (count_id id doc).

(** The document has only gained elements, at its end. *)
Definition extends (doc doc' : list element) : Prop :=
  exists l, doc' = doc ++ l.

(** At most one link is awaited, and it is the element appended last. *)
Definition one_in_flight (w : world) : Prop :=
  match waiting w with
  | [] => True
  | [(n, k)] => S n = List.length (document w) /\ forall o, serial (k o)
  | _ => False
  end.

(** The pages on which one sequence has been called or scheduled: while the
    document is loading at most one listener is registered, a serial one,
    and nothing is awaited as long as it is. *)
Definition init_page (w : world) : Prop :=
  one_in_flight w /\
  (readyState w = Loading ->
   match listeners w with
   | [] => True
   | [l] => waiting w = [] /\ serial l
   | _ => False
   end).

(** The character [c] occurs in [s]. *)
Fixpoint contains_char (c : ascii) (s : string) : bool :=
  match s with
  | EmptyString => false
  | String d rest => Ascii.eqb d c || contains_char c rest
  end.

(** An API call of [load], the one operation whose promise can reject. *)
Definition is_load_call (a : action) : bool :=
  match a with
  | Api (CallLoad _ _) => true
  | _ => false
  end.

(** The [console.error] lines of a console. *)
Definition error_lines (c : list log_entry) : list log_entry :=
  filter (fun e => match fst e with ErrorLevel => true | _ => false end) c.

(** [calm p]: [p] writes no [console.error] line, and neither do the
    functions it calls or registers. *)
Inductive calm : prog -> Prop :=
| calm_Ret : calm Ret
| calm_Throw e : calm (Throw e)
| calm_Get i k : (forall r, calm (k r)) -> calm (GetElementById i k)
| calm_Append el k : (forall n, calm (k n)) -> calm (AppendChild el k)
| calm_Await n k : (forall o, calm (k o)) -> calm (Await n k)
| calm_Console lv args k :
    lv <> ErrorLevel -> calm k -> calm (Console lv args k)
| calm_Path k : (forall s, calm (k s)) -> calm (GetPathname k)
| calm_Ready k : (forall r, calm (k r)) -> calm (GetReadyState k)
| calm_Listen l k : calm l -> calm k -> calm (AddDOMContentLoaded l k)
| calm_Call p k : calm p -> calm k -> calm (Call p k).

(** The link of the page named [name]. *)
Definition page_link (name : string) : element :=
  link_element ("./" ++ name ++ ".css")%string
               (Some ("page-css-" ++ name)%string).

(* ------------------------------------------------------------------ *)
(** ** Running command trees *)

Lemma exec_seq : forall p q w,
  exec (seq p q) w =
  match exec p w with
  | (w', Done) => exec q w'
  | (w', Failed e) => (w', Failed e)
  | (w', Waiting n k) => (w', Waiting n (fun o => seq (k o) q))
  end.
Proof.
  induction p as [ | e | i k IH | el k IH | n k IH | lv args k IH | k IH | k IH
                   | l _ k IH | p' _ k IH ]; intros q w; simpl; auto.
  destruct (exec p' w) as [w1 s]. apply IH.
Qed.

Lemma exec_try_catch : forall p h w,
  exec (try_catch p h) w =
  match exec p w with
  | (w', Done) => (w', Done)
  | (w', Failed e) => exec (h e) w'
  | (w', Waiting n k) => (w', Waiting n (fun o => try_catch (k o) h))
  end.
Proof.
  induction p as [ | e | i k IH | el k IH | n k IH | lv args k IH | k IH | k IH
                   | l _ k IH | p' _ k IH ]; intros h w; simpl; auto.
  destruct (exec p' w) as [w1 s]. apply IH.
Qed.

Lemma drive_nil : forall r, drive [] r = r.
Proof. intros [w s]; reflexivity. Qed.

Lemma drive_Done : forall os w, drive os (w, Done) = (w, Done).
Proof. intros [ | o os] w; reflexivity. Qed.

Lemma drive_Failed : forall os w e, drive os (w, Failed e) = (w, Failed e).
Proof. intros [ | o os] w e; reflexivity. Qed.

Lemma drive_Waiting : forall o os w n k,
  drive (o :: os) (w, Waiting n k) = drive os (exec (k o) w).
Proof. reflexivity. Qed.

Lemma drive_app : forall os1 os2 r,
  drive (os1 ++ os2) r = drive os2 (drive os1 r).
Proof.
  induction os1 as [ | o os1 IH]; intros os2 [w s].
  - reflexivity.
  - destruct s as [ | e | n k]; simpl.
    + now rewrite drive_Done.
    + now rewrite drive_Failed.
    + apply IH.
Qed.

(** ** Looking identifiers up *)

Lemma getElementById_app_None : forall i doc el,
  getElementById i doc = None ->
  has_id i el = false ->
  getElementById i (doc ++ [el]) = None.
Proof.
  unfold getElementById. intros i doc el H Hel.
  destruct (String.eqb i ""); auto.
  induction doc as [ | x doc IH]; simpl in *.
  - now rewrite Hel.
  - destruct (has_id i x); [discriminate | auto].
Qed.

Lemma getElementById_app_Some : forall i doc el,
  i <> "" -> has_id i el = true ->
  exists e, getElementById i (doc ++ [el]) = Some e.
Proof.
  unfold getElementById. intros i doc el Hi Hel.
  apply String.eqb_neq in Hi. rewrite Hi.
  induction doc as [ | x doc IH]; simpl.
  - rewrite Hel. eauto.
  - destruct (has_id i x); eauto.
Qed.

Lemma getElementById_None_count : forall i doc,
  i <> "" -> getElementById i doc = None -> count_id i doc = 0.
Proof.
  unfold getElementById, count_id. intros i doc Hi.
  apply String.eqb_neq in Hi. rewrite Hi.
  induction doc as [ | x doc IH]; simpl; auto.
  destruct (has_id i x); [discriminate | auto].
Qed.

Lemma count_None_getElementById : forall i doc,
  count_id i doc = 0 -> getElementById i doc = None.
Proof.
  unfold getElementById, count_id. intros i doc.
  destruct (String.eqb i ""); auto.
  induction doc as [ | x doc IH]; simpl; auto.
  destruct (has_id i x); simpl; [discriminate | auto].
Qed.

Lemma count_pos_getElementById : forall i doc,
  i <> "" -> 1 <= count_id i doc -> exists e, getElementById i doc = Some e.
Proof.
  intros i doc Hi Hc.
  destruct (getElementById i doc) as [e | ] eqn:E; eauto.
  apply getElementById_None_count in E; auto. lia.
Qed.

Lemma count_id_app : forall i doc el,
  count_id i (doc ++ [el]) = count_id i doc + (if has_id i el then 1 else 0).
Proof.
  unfold count_id. intros i doc el.
  rewrite filter_app, length_app. simpl.
  destruct (has_id i el); reflexivity.
Qed.

Lemma has_id_link : forall i cssPath id,
  has_id i (link_element cssPath id) =
  match id with
  | Some j => JS.truthy id && String.eqb i j
  | None => false
  end.
Proof.
  intros i cssPath [j | ]; unfold has_id; simpl; auto.
  destruct (String.eqb j ""); reflexivity.
Qed.

(** ** [loadCSS], one call *)

Lemma exec_insert_link : forall cssPath id w,
  exec (insert_link cssPath id) w =
  (appendChild (link_element cssPath id) w,
   Waiting (List.length (document w)) (on_event cssPath)).
Proof. reflexivity. Qed.

Lemma loadCSS_unfold : forall cssPath id w,
  exec (loadCSS cssPath id) w =
  if already_loaded id (document w) then (w, Done)
  else exec (insert_link cssPath id) w.
Proof.
  intros cssPath [i | ] w; unfold loadCSS, already_loaded; auto.
  destruct (JS.truthy (Some i)); auto.
  cbn [exec andb]. destruct (getElementById i (document w)); reflexivity.
Qed.

Lemma exec_on_event_Load : forall cssPath w,
  exec (on_event cssPath Load) w =
  (write_console LogLevel ["CSS loaded successfully:"; cssPath] w, Done).
Proof. reflexivity. Qed.

Lemma exec_on_event_Error : forall cssPath w,
  exec (on_event cssPath Error) w =
  (write_console WarnLevel ["Failed to load CSS:"; cssPath] w,
   Failed (JsError ("Failed to load CSS: " ++ cssPath)%string)).
Proof. reflexivity. Qed.

(** C7.  A call of [loadCSS] that the identifier test does not short-circuit
    inserts the link and stays pending until the platform reports: it
    resolves on the [load] event, and on the [error] event it rejects with
    an [Error] whose message is [Failed to load CSS: ] followed by the
    path. *)
Theorem loadCSS_settles_with_event : forall cssPath id w,
  already_loaded id (document w) = false ->
  let w1 := appendChild (link_element cssPath id) w in
  exec (loadCSS cssPath id) w =
    (w1, Waiting (List.length (document w)) (on_event cssPath)) /\
  drive [Load] (exec (loadCSS cssPath id) w) =
    (write_console LogLevel ["CSS loaded successfully:"; cssPath] w1, Done) /\
  drive [Error] (exec (loadCSS cssPath id) w) =
    (write_console WarnLevel ["Failed to load CSS:"; cssPath] w1,
     Failed (JsError ("Failed to load CSS: " ++ cssPath)%string)).
Proof.
  intros cssPath id w H w1.
  rewrite loadCSS_unfold, H, exec_insert_link.
  repeat split.
Qed.

Lemma loadCSS_settles_with_event_witness :
  already_loaded (Some "theme") (document (blank_page Complete "/")) = false /\
  drive [Error] (exec (loadCSS "./theme.css" (Some "theme"))
                      (blank_page Complete "/")) =
    (write_console WarnLevel ["Failed to load CSS:"; "./theme.css"]
       (appendChild (link_element "./theme.css" (Some "theme"))
          (blank_page Complete "/")),
     Failed (JsError "Failed to load CSS: ./theme.css")).
Proof.
  split; [reflexivity | ].
  apply (loadCSS_settles_with_event "./theme.css" (Some "theme")
           (blank_page Complete "/")).
  reflexivity.
Defined.

Lemma document_start_loadCSS_None : forall cssPath w,
  document (start (loadCSS cssPath None) w) =
  document w ++ [link_element cssPath None].
Proof. reflexivity. Qed.

(** C10.  Called without an identifier, [loadCSS] never short-circuits: each
    call appends a new link element (tag [link], [rel] [stylesheet], [type]
    [text/css], [href] the path) that carries no identifier, whatever the
    document holds already, so [n] calls with one path append [n] such links
    with that [href]. *)
Theorem loadCSS_without_id_always_appends : forall cssPath w,
  exec (loadCSS cssPath None) w =
    (appendChild (link_element cssPath None) w,
     Waiting (List.length (document w)) (on_event cssPath)) /\
  el_id (link_element cssPath None) = None /\
  href (link_element cssPath None) = cssPath /\
  (forall n,
     document (run (repeat (Api (CallLoad cssPath None)) n) w) =
     document w ++ repeat (link_element cssPath None) n) /\
  link_element cssPath None =
    mkElement "link" "stylesheet" "text/css" cssPath None /\
  document (fst (exec (loadCSS cssPath None) w)) =
    document w ++ [mkElement "link" "stylesheet" "text/css" cssPath None] /\
  forall n,
    document (run (repeat (Api (CallLoad cssPath None)) n) w) =
    document w ++
    repeat (mkElement "link" "stylesheet" "text/css" cssPath None) n.
Proof.
  intros cssPath w.
  assert (Hn : forall n,
    document (run (repeat (Api (CallLoad cssPath None)) n) w) =
    document w ++ repeat (link_element cssPath None) n);
    [ | repeat split; exact Hn].
  intros n. revert w. induction n as [ | n IH]; intros w.
  - simpl. now rewrite app_nil_r.
  - change (run (repeat (Api (CallLoad cssPath None)) (S n)) w)
      with (run (repeat (Api (CallLoad cssPath None)) n)
                (start (loadCSS cssPath None) w)).
    rewrite IH, document_start_loadCSS_None.
    now rewrite <- app_assoc.
Qed.

(** ** The page name *)

Lemma split_acc_not_nil : forall sep s cur, JS.split_acc sep cur s <> [].
Proof.
  induction s as [ | c s IH]; intros cur; simpl; [discriminate | ].
  destruct (Ascii.eqb c sep); [discriminate | apply IH].
Qed.

Lemma pop_last : forall l, l <> [] -> JS.pop l = Some (last l EmptyString).
Proof.
  induction l as [ | x l IH]; intros H; [congruence | ].
  destruct l as [ | y l]; [reflexivity | ].
  change (JS.pop (y :: l) = Some (last (y :: l) EmptyString)).
  apply IH. discriminate.
Qed.

Lemma pageName_of_last : forall path,
  pageName_of path =
  Some (JS.replace ".html" "" (last (JS.split "/" path) EmptyString)).
Proof.
  intros path. unfold pageName_of.
  rewrite pop_last; [reflexivity | apply split_acc_not_nil].
Qed.

Lemma exec_autoLoadPageCSS_named : forall w name,
  pageName_of (pathname w) = Some name -> name <> EmptyString ->
  exec autoLoadPageCSS w =
  exec (try_catch
          (loadCSS ("./" ++ name ++ ".css")%string
                   (Some ("page-css-" ++ name)%string) ;;
           Console LogLevel [("Page-specific CSS loaded for: " ++ name)%string]
                   Ret)
          (fun _ =>
             Console LogLevel
                     [("No page-specific CSS found for: " ++ name)%string] Ret))
       w.
Proof.
  intros w name Hn Hne. unfold autoLoadPageCSS. cbn [exec].
  rewrite Hn. apply String.eqb_neq in Hne.
  unfold JS.truthy. rewrite Hne. reflexivity.
Qed.

(** C6.  When the derived page name is empty, as it is for the path [/],
    [autoLoadPageCSS] calls nothing: the page is left as it was and the
    function has completed. *)
Theorem autoLoadPageCSS_empty_name : forall w,
  pageName_of (pathname w) = Some EmptyString ->
  exec autoLoadPageCSS w = (w, Done) /\
  pageName_of "/" = Some EmptyString.
Proof.
  intros w H. split; [ | reflexivity].
  unfold autoLoadPageCSS. cbn [exec]. rewrite H. reflexivity.
Qed.

Lemma autoLoadPageCSS_empty_name_witness :
  pageName_of (pathname (blank_page Complete "/")) = Some EmptyString /\
  exec autoLoadPageCSS (blank_page Complete "/") =
    (blank_page Complete "/", Done).
Proof.
  split; [reflexivity | ].
  apply (autoLoadPageCSS_empty_name (blank_page Complete "/")).
  reflexivity.
Defined.

(** C2 fails for the path [/a.html.bak]: the page name is not the
    suffix-stripped segment, [replace] removes the first [.html] of the
    segment, wherever it stands. *)
Lemma pageName_not_suffix_stripped :
  pageName_of "/a.html.bak" <> spec_pageName "/a.html.bak" /\
  document (fst (exec autoLoadPageCSS (blank_page Complete "/a.html.bak")))
    = [link_element "./a.bak.css" (Some "page-css-a.bak")] /\
  document (fst (exec autoLoadPageCSS (blank_page Complete "/a.html.bak")))
    <> spec_page_links "/a.html.bak".
Proof.
  split; [ | split].
  - vm_compute. discriminate.
  - reflexivity.
  - vm_compute. discriminate.
Qed.

(** C2 (amended).  For every current path, [autoLoadPageCSS] derives the page
    name as the last path segment with the first occurrence of [.html]
    removed; when that name is not empty it calls [loadCSS] for the resource
    [./<name>.css] with identifier [page-css-<name>], which inserts that link
    unless an element with the identifier exists.  For
    [/foo/bar/dashboard.html] the name is [dashboard]. *)
Theorem autoLoadPageCSS_attempt : forall w,
  let name :=
    JS.replace ".html" "" (last (JS.split "/" (pathname w)) EmptyString) in
  let cssPath := ("./" ++ name ++ ".css")%string in
  let id := ("page-css-" ++ name)%string in
  name <> EmptyString ->
  pageName_of (pathname w) = Some name /\
  exec autoLoadPageCSS w =
    exec (try_catch
            (loadCSS cssPath (Some id) ;;
             Console LogLevel
                     [("Page-specific CSS loaded for: " ++ name)%string] Ret)
            (fun _ =>
               Console LogLevel
                       [("No page-specific CSS found for: " ++ name)%string]
                       Ret)) w /\
  document (fst (exec autoLoadPageCSS w)) =
    document w ++
    (if already_loaded (Some id) (document w) then []
     else [link_element cssPath (Some id)]) /\
  pageName_of "/foo/bar/dashboard.html" = Some "dashboard".
Proof.
  intros w name cssPath id Hne.
  assert (Hn : pageName_of (pathname w) = Some name) by apply pageName_of_last.
  split; [exact Hn | ].
  split; [now apply exec_autoLoadPageCSS_named | ].
  split; [ | reflexivity].
  rewrite (exec_autoLoadPageCSS_named w Hn Hne).
  rewrite exec_try_catch, exec_seq, loadCSS_unfold.
  fold cssPath id.
  destruct (already_loaded (Some id) (document w)).
  - cbn. now rewrite app_nil_r.
  - reflexivity.
Qed.

Lemma autoLoadPageCSS_attempt_witness :
  document (fst (exec autoLoadPageCSS
                      (blank_page Complete "/foo/bar/dashboard.html"))) =
  [link_element "./dashboard.css" (Some "page-css-dashboard")].
Proof.
  apply (autoLoadPageCSS_attempt (blank_page Complete "/foo/bar/dashboard.html")).
  vm_compute. discriminate.
Defined.

(* ------------------------------------------------------------------ *)
(** ** The discipline [settles]: rejections are caught *)

Lemma settles_weaken : forall p c, settles false p -> settles c p.
Proof.
  induction p; intros c Hs; inversion Hs; subst; constructor; auto.
Qed.

Lemma settles_seq : forall p q c, settles c p -> settles c q -> settles c (seq p q).
Proof.
  induction p; intros q c Hp Hq; inversion Hp; subst; simpl; auto;
    constructor; auto.
Qed.

Lemma settles_try_catch : forall p h c,
  settles true p -> (forall e, settles c (h e)) -> settles c (try_catch p h).
Proof.
  induction p; intros h c Hp Hh; inversion Hp; subst; simpl; auto;
    constructor; auto.
Qed.

Lemma handlers_all_detach : forall (P : prog -> Prop) n k w,
  handlers_all P w -> (forall o, P (k o)) ->
  handlers_all P (set_waiting (waiting w ++ [(n, k)]) w).
Proof.
  intros P n k w [Hl Hw] Hk. split; simpl; auto.
  apply Forall_app. split; auto.
Qed.

Lemma settles_exec : forall c p, settles c p -> forall w,
  status_settles c (snd (exec p w)) /\
  (handlers_all (settles false) w ->
   handlers_all (settles false) (fst (exec p w)) /\
   unhandled (fst (exec p w)) = unhandled w).
Proof.
  induction 1 as [ c | e | c i k _ IH | c el k _ IH | c n k Hk _
                 | c lv args k _ IH | c k _ IH | c k _ IH
                 | c l k Hl _ _ IH | c p k _ IHp _ IHk ]; intros w;
    cbn [exec]; try solve [simpl; auto]; try apply IH.
  - destruct (IH (List.length (document w)) (appendChild el w)) as [Hs Hw].
    split; auto.
  - destruct (IH (write_console lv args w)) as [Hs Hw]. split; auto.
  - destruct (IH (add_listener l w)) as [Hs Hw]. split; auto.
    intros [Hls Hws]. apply Hw. split; simpl; auto.
    apply Forall_app. split; auto.
  - destruct (IHp w) as [Hs Hw].
    destruct (exec p w) as [w1 s1]. cbn [fst snd] in *.
    destruct (IHk (detach s1 w1)) as [Hs' Hw'].
    split; auto.
    intros Hall. destruct (Hw Hall) as [Hall1 Hun1].
    destruct s1 as [ | e | n k1]; simpl in Hs; try discriminate.
    + destruct (Hw' Hall1) as [A B]. split; auto. now rewrite B.
    + destruct Hw' as [A B];
        [now apply handlers_all_detach | ].
      split; auto. now rewrite B.
Qed.

Lemma settles_drive : forall os w s,
  status_settles false s -> rejected (snd (drive os (w, s))) = false.
Proof.
  induction os as [ | o os IH]; intros w s Hs.
  - destruct s; simpl in *; auto; discriminate.
  - destruct s as [ | e | n k]; simpl in *; auto; try discriminate.
    destruct (settles_exec (Hs o) w) as [Hs' _].
    destruct (exec (k o) w) as [w' s']. now apply IH.
Qed.

Lemma settles_never_rejects : forall p os w,
  settles false p -> rejected (snd (drive os (exec p w))) = false.
Proof.
  intros p os w H.
  destruct (settles_exec H w) as [Hs _].
  destruct (exec p w) as [w' s']. now apply settles_drive.
Qed.

Lemma settles_start : forall p w,
  settles false p -> handlers_all (settles false) w ->
  handlers_all (settles false) (start p w) /\
  unhandled (start p w) = unhandled w.
Proof.
  intros p w Hp Hw. unfold start.
  destruct (settles_exec Hp w) as [Hs H]. destruct (H Hw) as [Hall Hun].
  destruct (exec p w) as [w1 s1]. cbn [fst snd] in *.
  destruct s1 as [ | e | n k]; simpl in Hs; try discriminate; auto.
  split; [now apply handlers_all_detach | exact Hun].
Qed.

Lemma take_handler_Forall : forall (P : nat * (outcome -> prog) -> Prop) n ws k rest,
  take_handler n ws = Some (k, rest) ->
  Forall P ws -> P (n, k) /\ Forall P rest.
Proof.
  induction ws as [ | [m k0] ws IH]; intros k rest H HF; simpl in H;
    [discriminate | ].
  inversion HF as [ | x l Hx Hl]; subst.
  destruct (Nat.eqb m n) eqn:E.
  - apply Nat.eqb_eq in E. inversion H; subst. auto.
  - destruct (take_handler n ws) as [[k' rest'] | ]; [ | discriminate].
    inversion H; subst.
    destruct (IH k rest' eq_refl Hl) as [A B]. auto.
Qed.

Lemma settles_dispatch : forall ls w,
  Forall (settles false) ls -> handlers_all (settles false) w ->
  handlers_all (settles false) (dispatch ls w) /\
  unhandled (dispatch ls w) = unhandled w.
Proof.
  induction ls as [ | l ls IH]; intros w HF Hw; [now split | ].
  inversion HF; subst.
  destruct (settles_start H1 Hw) as [A B].
  destruct (IH (start l w) H2 A) as [C D].
  split; [exact C | ]. unfold dispatch in *. simpl. now rewrite D.
Qed.

Lemma settles_fire : forall ev w,
  handlers_all (settles false) w ->
  handlers_all (settles false) (fire ev w) /\
  unhandled (fire ev w) = unhandled w.
Proof.
  intros [n o | ] w Hw; unfold fire.
  - destruct (take_handler n (waiting w)) as [[k rest] | ] eqn:E; auto.
    destruct Hw as [Hl Hws].
    destruct (@take_handler_Forall _ _ _ _ _ E Hws) as [Hk Hrest].
    assert (Hw' : handlers_all (settles false) (set_waiting rest w))
      by (split; auto).
    destruct (settles_start (Hk o) Hw') as [A B]. split; auto.
  - destruct (is_loading (readyState w)); auto.
    destruct Hw as [Hl Hws].
    assert (Hw' : handlers_all (settles false) (set_readyState Interactive w))
      by (split; auto).
    destruct (settles_dispatch Hl Hw') as [A B]. split; auto.
Qed.

Lemma settles_fires : forall evs w,
  handlers_all (settles false) w ->
  handlers_all (settles false) (fires evs w) /\
  unhandled (fires evs w) = unhandled w.
Proof.
  induction evs as [ | ev evs IH]; intros w Hw; [now split | ].
  destruct (settles_fire ev Hw) as [A B].
  destruct (IH (fire ev w) A) as [C D].
  split; [exact C | ]. unfold fires in *. simpl. now rewrite D.
Qed.

(* ------------------------------------------------------------------ *)
(** ** The discipline [within]: a bound on the suspensions *)

Lemma within_le : forall n p, within n p -> forall m, n <= m -> within m p.
Proof.
  induction 1; intros m' Hle; try (constructor; auto; fail).
  destruct m' as [ | m']; [lia | ].
  constructor. intros o. apply H0. lia.
Qed.

Lemma within_seq : forall a p, within a p ->
  forall b q, within b q -> within (a + b) (seq p q).
Proof.
  induction 1; intros b q Hq; simpl; try (constructor; auto; fail).
  apply within_le with (n := b); [exact Hq | lia].
Qed.

Lemma within_try_catch : forall a p, within a p ->
  forall b h, (forall e, within b (h e)) -> within (a + b) (try_catch p h).
Proof.
  induction 1; intros b h Hh; simpl; try (constructor; auto; fail).
  apply within_le with (n := b); [apply Hh | lia].
Qed.

Lemma within_exec : forall n p, within n p ->
  forall w, status_within n (snd (exec p w)).
Proof.
  induction 1; intros w; cbn [exec]; try solve [simpl; auto].
  - simpl. eauto.
  - destruct (exec p w) as [w1 s1]. auto.
Qed.

Lemma within_drive : forall os n w s,
  status_within n s -> n <= List.length os ->
  is_waiting (snd (drive os (w, s))) = false.
Proof.
  induction os as [ | o os IH]; intros n w s Hs Hle.
  - destruct s as [ | e | m k]; simpl in *; auto.
    destruct Hs as [n' [Hn _]]. lia.
  - destruct s as [ | e | m k]; simpl in *; auto.
    destruct Hs as [n' [Hn Hk]].
    pose proof (within_exec (Hk o) w) as Hs'.
    destruct (exec (k o) w) as [w' s']. apply IH with (n := n'); auto. lia.
Qed.

Lemma within_completes : forall n p os w,
  within n p -> n <= List.length os ->
  is_waiting (snd (drive os (exec p w))) = false.
Proof.
  intros n p os w H Hle.
  pose proof (within_exec H w) as Hs.
  destruct (exec p w) as [w' s']. now apply within_drive with (n := n).
Qed.

Lemma settled_resolved : forall s,
  rejected s = false -> is_waiting s = false -> s = Done.
Proof. intros [ | e | n k]; simpl; congruence. Qed.

(** ** The script obeys [settles] and [within] *)

Lemma pageName_of_Some : forall path, exists name, pageName_of path = Some name.
Proof. intros path. rewrite pageName_of_last. eauto. Qed.

Lemma settles_on_event : forall cssPath o, settles true (on_event cssPath o).
Proof. intros cssPath [ | ]; repeat constructor. Qed.

Lemma settles_loadCSS : forall cssPath id, settles true (loadCSS cssPath id).
Proof.
  assert (Hi : forall cssPath id, settles true (insert_link cssPath id)).
  { intros. repeat constructor. intros. apply settles_on_event. }
  intros cssPath [i | ]; unfold loadCSS; auto.
  destruct (JS.truthy (Some i)); auto.
  constructor. intros [e | ]; auto. constructor.
Qed.

Lemma settles_loadGenericCSS_from : forall files i,
  settles false (loadGenericCSS_from files i).
Proof.
  induction files as [ | f rest IH]; intros i; cbn [loadGenericCSS_from];
    [constructor | ].
  apply settles_try_catch; auto.
  apply settles_seq; [apply settles_loadCSS | repeat constructor].
Qed.

Lemma settles_autoLoadPageCSS : settles false autoLoadPageCSS.
Proof.
  unfold autoLoadPageCSS. constructor. intros path.
  destruct (pageName_of_Some path) as [name ->].
  destruct (JS.truthy (Some name) && negb (String.eqb name "")); [ | constructor].
  apply settles_try_catch; [ | repeat constructor].
  apply settles_seq; [apply settles_loadCSS | repeat constructor].
Qed.

Lemma settles_loadAllCSS_with : forall files, settles false (loadAllCSS_with files).
Proof.
  intros files. unfold loadAllCSS_with.
  apply settles_try_catch; [ | repeat constructor].
  apply settles_seq; [apply settles_weaken, settles_loadGenericCSS_from | ].
  apply settles_seq; [apply settles_weaken, settles_autoLoadPageCSS | ].
  repeat constructor.
Qed.

Lemma settles_init : settles false init.
Proof.
  unfold init. constructor. intros r.
  destruct (is_loading r); constructor;
    (apply settles_loadAllCSS_with || constructor).
Qed.

Lemma within_loadCSS : forall cssPath id, within 1 (loadCSS cssPath id).
Proof.
  assert (Hi : forall cssPath id, within 1 (insert_link cssPath id)).
  { intros. constructor. intros m. constructor. intros [ | ]; repeat constructor. }
  intros cssPath [i | ]; unfold loadCSS; auto.
  destruct (JS.truthy (Some i)); auto.
  constructor. intros [e | ]; auto. constructor.
Qed.

Lemma within_loadGenericCSS_from : forall files i,
  within (List.length files) (loadGenericCSS_from files i).
Proof.
  induction files as [ | f rest IH]; intros i;
    cbn [loadGenericCSS_from List.length]; [constructor | ].
  change (S (List.length rest)) with (1 + List.length rest).
  apply within_try_catch; auto.
  change 1 with (1 + 0).
  apply within_seq; [apply within_loadCSS | repeat constructor].
Qed.

Lemma within_autoLoadPageCSS : within 1 autoLoadPageCSS.
Proof.
  unfold autoLoadPageCSS. constructor. intros path.
  destruct (pageName_of path) as [name | ]; [ | constructor].
  destruct (JS.truthy (Some name) && negb (String.eqb name "")); [ | constructor].
  change 1 with ((1 + 0) + 0).
  apply within_try_catch; [ | repeat constructor].
  apply within_seq; [apply within_loadCSS | repeat constructor].
Qed.

Lemma within_loadAllCSS_with : forall files,
  within (S (List.length files)) (loadAllCSS_with files).
Proof.
  intros files. unfold loadAllCSS_with.
  replace (S (List.length files)) with ((List.length files + (1 + 0)) + 0) by lia.
  apply within_try_catch; [ | repeat constructor].
  apply within_seq; [apply within_loadGenericCSS_from | ].
  apply within_seq; [apply within_autoLoadPageCSS | repeat constructor].
Qed.

(* ------------------------------------------------------------------ *)
(** ** [loadGenericCSS] *)

Lemma decimal_inj : forall a b, JS.decimal a = JS.decimal b -> a = b.
Proof.
  unfold JS.decimal. intros a b H.
  apply (f_equal NilEmpty.uint_of_string) in H.
  rewrite !NilEmpty.usu in H.
  rewrite <- (Unsigned.of_to a), <- (Unsigned.of_to b). congruence.
Qed.

Lemma generic_id_inj : forall a b, generic_id a = generic_id b -> a = b.
Proof.
  unfold generic_id. intros a b H. cbn [append] in H.
  apply decimal_inj. congruence.
Qed.

Lemma generic_id_not_empty : forall i, generic_id i <> EmptyString.
Proof. intros i. unfold generic_id. cbn [append]. discriminate. Qed.

Lemma truthy_generic_id : forall i, JS.truthy (Some (generic_id i)) = true.
Proof. reflexivity. Qed.

Lemma fresh_from_not_loaded : forall i doc,
  fresh_from i doc -> already_loaded (Some (generic_id i)) doc = false.
Proof.
  intros i doc H. unfold already_loaded.
  rewrite (H i (le_n i)). apply andb_false_r.
Qed.

Lemma fresh_from_append : forall i doc cssPath,
  fresh_from i doc ->
  fresh_from (S i) (doc ++ [link_element cssPath (Some (generic_id i))]).
Proof.
  intros i doc cssPath H j Hj.
  apply getElementById_app_None; [apply H; lia | ].
  rewrite has_id_link, truthy_generic_id. cbn [andb].
  apply String.eqb_neq. intros E. apply generic_id_inj in E. lia.
Qed.

(** One round of the loop. *)
Lemma exec_loadGenericCSS_from_cons : forall cssFile rest i w,
  exec (loadGenericCSS_from (cssFile :: rest) i) w =
  if already_loaded (Some (generic_id i)) (document w)
  then (write_console LogLevel [("Generic CSS loaded: " ++ cssFile)%string] w,
        Done)
  else
    (appendChild (link_element ("./" ++ cssFile)%string (Some (generic_id i))) w,
     Waiting (List.length (document w))
       (fun o =>
          try_catch
            (on_event ("./" ++ cssFile)%string o ;;
             Console LogLevel [("Generic CSS loaded: " ++ cssFile)%string] Ret)
            (fun _ => loadGenericCSS_from rest (S i)))).
Proof.
  intros cssFile rest i w. cbn [loadGenericCSS_from].
  rewrite exec_try_catch, exec_seq, loadCSS_unfold.
  fold (generic_id i).
  destruct (already_loaded (Some (generic_id i)) (document w)); reflexivity.
Qed.

Lemma drive_errors_loadGenericCSS_from : forall m files i w,
  fresh_from i (document w) -> m <= List.length files ->
  exists w',
    drive (repeat Error m) (exec (loadGenericCSS_from files i) w) =
      exec (loadGenericCSS_from (skipn m files) (i + m)) w' /\
    document w' = document w ++ generic_links (firstn m files) i /\
    fresh_from (i + m) (document w').
Proof.
  induction m as [ | m IH]; intros files i w Hf Hm.
  - exists w. rewrite Nat.add_0_r, app_nil_r. auto.
  - destruct files as [ | f rest]; [simpl in Hm; lia | ].
    simpl in Hm.
    rewrite exec_loadGenericCSS_from_cons, (fresh_from_not_loaded Hf).
    cbn [repeat]. rewrite drive_Waiting.
    rewrite exec_try_catch, exec_seq, exec_on_event_Error.
    set (w1 := write_console _ _ _).
    destruct (IH rest (S i) w1) as [w' [E [D F]]].
    + apply fresh_from_append. exact Hf.
    + lia.
    + exists w'. rewrite Nat.add_succ_r. split; [exact E | ].
      split; [ | exact F].
      rewrite D. subst w1. cbn [document write_console appendChild firstn
                                generic_links].
      now rewrite <- app_assoc.
Qed.

Lemma generic_links_snoc : forall m files i f,
  nth_error files m = Some f ->
  generic_links (firstn (S m) files) i =
  generic_links (firstn m files) i ++
  [link_element ("./" ++ f)%string (Some (generic_id (i + m)))].
Proof.
  induction m as [ | m IH]; intros files i f H;
    destruct files as [ | g rest]; try discriminate.
  - simpl in H. inversion H; subst. rewrite Nat.add_0_r. reflexivity.
  - simpl in H.
    change (firstn (S (S m)) (g :: rest)) with (g :: firstn (S m) rest).
    change (firstn (S m) (g :: rest)) with (g :: firstn m rest).
    cbn [generic_links].
    rewrite (IH rest (S i) f H), Nat.add_succ_r. reflexivity.
Qed.

Lemma skipn_nth_error : forall (m : nat) (files : list string),
  m < List.length files ->
  exists f rest, nth_error files m = Some f /\ skipn m files = f :: rest.
Proof.
  induction m as [ | m IH]; intros [ | g files] H; simpl in H; try lia.
  - exists g, files. split; reflexivity.
  - destruct (IH files) as [f [rest [A B]]]; [lia | ].
    exists f, rest. split; assumption.
Qed.

(** C3 fails where it says that a run in which every candidate fails inserts
    no element: the link of a failed attempt stays in the document. *)
Lemma loadGenericCSS_failure_leaves_link :
  snd (drive [Error] (exec loadGenericCSS (blank_page Complete "/"))) = Done /\
  List.length
    (document (fst (drive [Error] (exec loadGenericCSS (blank_page Complete "/")))))
    <> 0.
Proof. split; [reflexivity | vm_compute; discriminate]. Qed.

(** C3 (amended).  [loadGenericCSS] tries the candidates in list order and
    stops at the first that loads: after [m] failures and a success the
    document has gained the links of the first [m + 1] candidates, in order,
    and no later one.  It never rejects, whatever the attempts report, and it
    has resolved once every attempt is answered.  When every candidate fails
    it resolves too, and the links of the failed attempts, one per
    candidate, stay in the document. *)
Theorem loadGenericCSS_in_order : forall files i w,
  (forall os,
     rejected (snd (drive os (exec (loadGenericCSS_from files i) w))) = false) /\
  (forall os, List.length files <= List.length os ->
     snd (drive os (exec (loadGenericCSS_from files i) w)) = Done) /\
  (fresh_from i (document w) ->
   (forall m, m < List.length files ->
      exists w',
        drive (repeat Error m ++ [Load]) (exec (loadGenericCSS_from files i) w)
          = (w', Done) /\
        document w' = document w ++ generic_links (firstn (S m) files) i) /\
   (exists w',
      drive (repeat Error (List.length files))
            (exec (loadGenericCSS_from files i) w) = (w', Done) /\
      document w' = document w ++ generic_links files i)).
Proof.
  intros files i w.
  assert (Hrej : forall os,
    rejected (snd (drive os (exec (loadGenericCSS_from files i) w))) = false).
  { intros os. apply settles_never_rejects, settles_loadGenericCSS_from. }
  split; [exact Hrej | ]. split.
  - intros os Hle. apply settled_resolved; [apply Hrej | ].
    apply within_completes with (n := List.length files); auto.
    apply within_loadGenericCSS_from.
  - intros Hf. split.
    + intros m Hm.
      destruct (drive_errors_loadGenericCSS_from files w Hf (Nat.lt_le_incl _ _ Hm))
        as [w1 [E [D F]]].
      destruct (skipn_nth_error files Hm) as [f [rest [Hn Hs]]].
      rewrite drive_app, E, Hs.
      rewrite exec_loadGenericCSS_from_cons, (fresh_from_not_loaded F).
      rewrite drive_Waiting, exec_try_catch, exec_seq, exec_on_event_Load.
      cbn [exec]. rewrite drive_nil.
      eexists. split; [reflexivity | ].
      cbn [document write_console appendChild].
      rewrite D, (@generic_links_snoc m files i f Hn).
      now rewrite <- app_assoc.
    + destruct (drive_errors_loadGenericCSS_from files w Hf (le_n _))
        as [w1 [E [D F]]].
      rewrite skipn_all in E. exists w1. split; [exact E | ].
      now rewrite D, firstn_all.
Qed.

Lemma loadGenericCSS_in_order_witness :
  fresh_from 0 (document (blank_page Complete "/")) /\
  exists w',
    drive (repeat Error (List.length commonCSSFiles))
          (exec (loadGenericCSS_from commonCSSFiles 0) (blank_page Complete "/"))
      = (w', Done) /\
    document w' =
      document (blank_page Complete "/") ++ generic_links commonCSSFiles 0.
Proof.
  assert (H : fresh_from 0 (document (blank_page Complete "/"))).
  { intros j _. unfold getElementById. simpl.
    destruct (String.eqb (generic_id j) ""); reflexivity. }
  split; [exact H | ].
  apply (loadGenericCSS_in_order commonCSSFiles 0 (blank_page Complete "/")).
  exact H.
Defined.

(* ------------------------------------------------------------------ *)
(** ** [init] and the combined sequence *)

Lemma exec_init : forall w,
  exec init w =
  if is_loading (readyState w)
  then (add_listener loadAllCSS w, Done)
  else (start loadAllCSS w, Done).
Proof.
  intros w. unfold init, start. cbn [exec].
  destruct (is_loading (readyState w)); cbn [exec]; [reflexivity | ].
  destruct (exec loadAllCSS w) as [w1 s]. reflexivity.
Qed.

Lemma quiescent_handlers_all : forall P w, quiescent w -> handlers_all P w.
Proof. intros P w [Hl Hw]. split; [rewrite Hl | rewrite Hw]; constructor. Qed.

Lemma page_id_not_generic : forall name i cssPath,
  has_id ("page-css-" ++ name)%string
         (link_element cssPath (Some (generic_id i))) = false.
Proof. reflexivity. Qed.

(** The run in which both stylesheets fail to load. *)
Lemma drive_loadAllCSS_all_fail : forall w name,
  pageName_of (pathname w) = Some name -> name <> EmptyString ->
  getElementById (generic_id 0) (document w) = None ->
  getElementById ("page-css-" ++ name)%string (document w) = None ->
  exists w',
    drive [Error; Error] (exec loadAllCSS w) = (w', Done) /\
    console w' =
      console w ++
      [(WarnLevel, ["Failed to load CSS:"; "./style.css"]);
       (WarnLevel, ["Failed to load CSS:"; ("./" ++ name ++ ".css")%string]);
       (LogLevel, [("No page-specific CSS found for: " ++ name)%string]);
       (LogLevel, ["CSS loading complete"])] /\
    unhandled w' = unhandled w.
Proof.
  intros w name Hn Hne Hg Hp.
  unfold loadAllCSS, loadAllCSS_with, commonCSSFiles.
  rewrite exec_try_catch, exec_seq, exec_loadGenericCSS_from_cons.
  unfold already_loaded at 1. rewrite Hg, andb_false_r.
  rewrite drive_Waiting.
  rewrite exec_try_catch, exec_seq, exec_try_catch, exec_seq,
    exec_on_event_Error.
  cbn [loadGenericCSS_from exec].
  set (w1 := write_console _ _ _).
  assert (Hn1 : pageName_of (pathname w1) = Some name) by exact Hn.
  rewrite exec_seq, (exec_autoLoadPageCSS_named w1 Hn1 Hne).
  rewrite exec_try_catch, exec_seq, loadCSS_unfold.
  assert (Hp1 : getElementById ("page-css-" ++ name)%string (document w1) = None).
  { subst w1. cbn [document write_console appendChild].
    apply getElementById_app_None; [exact Hp | apply page_id_not_generic]. }
  unfold already_loaded at 1. rewrite Hp1, andb_false_r.
  rewrite exec_insert_link, drive_Waiting.
  rewrite exec_try_catch, exec_seq, exec_try_catch, exec_seq,
    exec_on_event_Error.
  cbn [exec]. rewrite drive_nil.
  eexists. split; [reflexivity | ].
  subst w1. cbn [console unhandled write_console appendChild].
  split; [ | reflexivity].
  now rewrite <- !app_assoc.
Qed.

(** C4.  [init] returns normally, and no failure of a load leaves it: the
    combined sequence never rejects, whatever the platform reports for the
    links, and has resolved once the links it waited for are answered; on a
    page where [init] is the only thing scheduled no unhandled rejection
    ever appears, for any sequence of platform events.  When both
    stylesheets fail the failures end as console lines only. *)
Theorem init_never_fails : forall w,
  snd (exec init w) = Done /\
  (forall os, rejected (snd (drive os (exec loadAllCSS w))) = false) /\
  (forall os, 2 <= List.length os ->
     snd (drive os (exec loadAllCSS w)) = Done) /\
  (quiescent w ->
   forall evs, unhandled (fires evs (fst (exec init w))) = unhandled w) /\
  (forall name,
     pageName_of (pathname w) = Some name -> name <> EmptyString ->
     getElementById (generic_id 0) (document w) = None ->
     getElementById ("page-css-" ++ name)%string (document w) = None ->
     exists w',
       drive [Error; Error] (exec loadAllCSS w) = (w', Done) /\
       console w' =
         console w ++
         [(WarnLevel, ["Failed to load CSS:"; "./style.css"]);
          (WarnLevel, ["Failed to load CSS:"; ("./" ++ name ++ ".css")%string]);
          (LogLevel, [("No page-specific CSS found for: " ++ name)%string]);
          (LogLevel, ["CSS loading complete"])] /\
       unhandled w' = unhandled w).
Proof.
  intros w.
  assert (Hrej : forall os,
    rejected (snd (drive os (exec loadAllCSS w))) = false).
  { intros os. apply settles_never_rejects, settles_loadAllCSS_with. }
  split; [ | split; [exact Hrej | split; [ | split]]].
  - rewrite exec_init. destruct (is_loading (readyState w)); reflexivity.
  - intros os Hle. apply settled_resolved; [apply Hrej | ].
    apply within_completes with (n := 2); auto.
    apply (within_loadAllCSS_with commonCSSFiles).
  - intros Hq evs.
    pose proof (quiescent_handlers_all (settles false) Hq) as Hall.
    destruct (settles_exec settles_init w) as [_ H].
    destruct (H Hall) as [A B].
    destruct (settles_fires evs A) as [_ C].
    now rewrite C.
  - intros name. apply drive_loadAllCSS_all_fail.
Qed.

Lemma init_never_fails_witness :
  quiescent (blank_page Loading "/index.html") /\
  unhandled
    (fires [DOMContentLoaded; LinkEvent 0 Error; LinkEvent 1 Error]
           (fst (exec init (blank_page Loading "/index.html")))) = [] /\
  exists w',
    drive [Error; Error] (exec loadAllCSS (blank_page Complete "/index.html"))
      = (w', Done) /\
    console w' =
      [(WarnLevel, ["Failed to load CSS:"; "./style.css"]);
       (WarnLevel, ["Failed to load CSS:"; "./index.css"]);
       (LogLevel, ["No page-specific CSS found for: index"]);
       (LogLevel, ["CSS loading complete"])] /\
    unhandled w' = [].
Proof.
  assert (H : quiescent (blank_page Loading "/index.html")) by (split; reflexivity).
  split; [exact H | ]. split.
  - apply (init_never_fails (blank_page Loading "/index.html")).
    exact H.
  - apply (proj2 (proj2 (proj2 (proj2
             (init_never_fails (blank_page Complete "/index.html")))))
             "index"); [reflexivity | discriminate | reflexivity | reflexivity].
Defined.

(** ** The readiness state is the platform's *)

Lemma readyState_detach : forall s w, readyState (detach s w) = readyState w.
Proof. intros [ | e | n k] w; reflexivity. Qed.

Lemma readyState_exec : forall p w, readyState (fst (exec p w)) = readyState w.
Proof.
  induction p as [ | e | i k IH | el k IH | n k IH | lv args k IH | k IH | k IH
                   | l _ k IH | p' IHp k IH ]; intros w; cbn [exec]; auto;
    try (rewrite IH; reflexivity).
  specialize (IHp w). destruct (exec p' w) as [w1 s]. cbn [fst] in IHp.
  now rewrite IH, readyState_detach.
Qed.

Lemma readyState_start : forall p w, readyState (start p w) = readyState w.
Proof.
  intros p w. unfold start. pose proof (readyState_exec p w) as H.
  destruct (exec p w) as [w1 s]. cbn [fst] in H. now rewrite readyState_detach.
Qed.

Lemma readyState_dispatch : forall ls w,
  readyState (dispatch ls w) = readyState w.
Proof.
  induction ls as [ | l ls IH]; intros w; [reflexivity | ].
  unfold dispatch in *. simpl. now rewrite IH, readyState_start.
Qed.

Lemma fire_DOMContentLoaded_again : forall w,
  readyState w <> Loading -> fire DOMContentLoaded w = w.
Proof.
  intros w H. unfold fire. destruct (readyState w); [congruence | | ]; reflexivity.
Qed.

Lemma readyState_fire : forall ev w,
  readyState w <> Loading -> readyState (fire ev w) = readyState w.
Proof.
  intros [n o | ] w H.
  - unfold fire. destruct (take_handler n (waiting w)) as [[k rest] | ]; auto.
    now rewrite readyState_start.
  - now rewrite fire_DOMContentLoaded_again.
Qed.

Lemma readyState_run : forall acts w,
  readyState w <> Loading -> readyState (run acts w) = readyState w.
Proof.
  induction acts as [ | a acts IH]; intros w H; [reflexivity | ].
  assert (Ha : readyState (act a w) = readyState w).
  { destruct a as [c | ev]; [apply readyState_start | now apply readyState_fire]. }
  unfold run in *. simpl. rewrite IH; [exact Ha | now rewrite Ha].
Qed.

Lemma readyState_after_DOMContentLoaded : forall w,
  readyState (fire DOMContentLoaded w) <> Loading.
Proof.
  intros w. unfold fire. destruct (readyState w) eqn:E; cbn [is_loading].
  - rewrite readyState_dispatch. discriminate.
  - rewrite E. discriminate.
  - rewrite E. discriminate.
Qed.

(** C5.  Called when the readiness state is not [loading], [init] starts the
    combined sequence before it returns and registers no listener.  Called
    when it is [loading], [init] only registers the sequence as a
    [DOMContentLoaded] listener: nothing of the page changes, no link event
    starts the sequence, the event starts it once, after the listeners
    registered before, and however the page goes on the event does not start
    it again. *)
Theorem init_schedules : forall w,
  (readyState w <> Loading ->
   exec init w = (start loadAllCSS w, Done)) /\
  (readyState w = Loading ->
   exec init w = (add_listener loadAllCSS w, Done) /\
   document (fst (exec init w)) = document w /\
   console (fst (exec init w)) = console w /\
   waiting (fst (exec init w)) = waiting w /\
   (waiting w = [] ->
    forall n o, fire (LinkEvent n o) (fst (exec init w)) = fst (exec init w)) /\
   fire DOMContentLoaded (fst (exec init w)) =
     start loadAllCSS
       (dispatch (listeners w) (set_readyState Interactive (fst (exec init w)))) /\
   forall acts,
     fire DOMContentLoaded
          (run acts (fire DOMContentLoaded (fst (exec init w)))) =
     run acts (fire DOMContentLoaded (fst (exec init w)))).
Proof.
  intros w. rewrite exec_init. split; intros H.
  - destruct (readyState w); [congruence | | ]; reflexivity.
  - rewrite H. cbn [is_loading fst].
    repeat split.
    + intros Hw n o. unfold fire. cbn [waiting add_listener]. now rewrite Hw.
    + unfold fire. cbn [readyState add_listener]. rewrite H. cbn [is_loading].
      cbn [listeners add_listener]. unfold dispatch.
      rewrite fold_left_app. reflexivity.
    + intros acts. apply fire_DOMContentLoaded_again.
      rewrite readyState_run; apply readyState_after_DOMContentLoaded.
Qed.

Lemma init_schedules_witness :
  readyState (blank_page Loading "/index.html") = Loading /\
  document (fst (exec init (blank_page Loading "/index.html"))) = [] /\
  readyState (blank_page Complete "/index.html") <> Loading /\
  exec init (blank_page Complete "/index.html") =
    (start loadAllCSS (blank_page Complete "/index.html"), Done).
Proof.
  split; [reflexivity | ]. split.
  - apply (init_schedules (blank_page Loading "/index.html")). reflexivity.
  - split; [discriminate | ].
    apply (init_schedules (blank_page Complete "/index.html")). discriminate.
Defined.

(* ------------------------------------------------------------------ *)
(** ** Histories of a page

    A relation between documents that every run of a disciplined function
    respects is respected by every history of API calls and platform
    events. *)

Section History.

Variable P : prog -> Prop.
Variable R : list element -> list element -> Prop.

Hypothesis R_refl : forall d, R d d.
Hypothesis R_trans : forall d1 d2 d3, R d1 d2 -> R d2 d3 -> R d1 d3.
Hypothesis P_exec : forall p, P p -> forall w,
  R (document w) (document (fst (exec p w))) /\
  status_all P (snd (exec p w)) /\
  (handlers_all P w -> handlers_all P (fst (exec p w))).
Hypothesis P_api : forall c, P (api_prog c).

Lemma history_start : forall p w,
  P p -> handlers_all P w ->
  handlers_all P (start p w) /\ R (document w) (document (start p w)).
Proof.
  intros p w Hp Hw. unfold start.
  destruct (P_exec Hp w) as [HR [Hs Hall]]. specialize (Hall Hw).
  destruct (exec p w) as [w1 s1]. cbn [fst snd] in *.
  destruct s1 as [ | e | n k]; cbn [detach].
  - split; assumption.
  - split; [ | exact HR]. destruct Hall. split; auto.
  - split; [ | exact HR]. now apply handlers_all_detach.
Qed.

Lemma history_dispatch : forall ls w,
  Forall P ls -> handlers_all P w ->
  handlers_all P (dispatch ls w) /\ R (document w) (document (dispatch ls w)).
Proof.
  induction ls as [ | l ls IH]; intros w HF Hw; [split; auto | ].
  inversion HF; subst.
  destruct (history_start H1 Hw) as [A B].
  destruct (IH (start l w) H2 A) as [C D].
  split; [exact C | ]. unfold dispatch in *. simpl. eauto.
Qed.

Lemma history_fire : forall ev w,
  handlers_all P w ->
  handlers_all P (fire ev w) /\ R (document w) (document (fire ev w)).
Proof.
  intros [n o | ] w Hw; unfold fire.
  - destruct (take_handler n (waiting w)) as [[k rest] | ] eqn:E; auto.
    destruct Hw as [Hl Hws].
    destruct (@take_handler_Forall _ _ _ _ _ E Hws) as [Hk Hrest].
    assert (Hw' : handlers_all P (set_waiting rest w)) by (split; auto).
    apply (history_start (Hk o) Hw').
  - destruct (is_loading (readyState w)); auto.
    destruct Hw as [Hl Hws].
    assert (Hw' : handlers_all P (set_readyState Interactive w)) by (split; auto).
    apply (history_dispatch Hl Hw').
Qed.

Lemma history_run : forall acts w,
  handlers_all P w ->
  handlers_all P (run acts w) /\ R (document w) (document (run acts w)).
Proof.
  induction acts as [ | a acts IH]; intros w Hw; [split; auto | ].
  assert (Ha : handlers_all P (act a w) /\ R (document w) (document (act a w))).
  { destruct a as [c | ev]; [apply history_start; auto | now apply history_fire]. }
  destruct Ha as [A B]. destruct (IH (act a w) A) as [C D].
  split; [exact C | ]. unfold run in *. simpl. eauto.
Qed.

End History.

(* ------------------------------------------------------------------ *)
(** ** The document only grows *)

Lemma extends_refl : forall d, extends d d.
Proof. intros d. exists []. now rewrite app_nil_r. Qed.

Lemma extends_trans : forall d1 d2 d3,
  extends d1 d2 -> extends d2 d3 -> extends d1 d3.
Proof.
  intros d1 d2 d3 [l1 H1] [l2 H2]. exists (l1 ++ l2).
  now rewrite H2, H1, app_assoc.
Qed.

Lemma document_detach : forall s w, document (detach s w) = document w.
Proof. intros [ | e | n k] w; reflexivity. Qed.

Lemma extends_exec : forall p w,
  extends (document w) (document (fst (exec p w))).
Proof.
  induction p as [ | e | i k IH | el k IH | n k IH | lv args k IH | k IH | k IH
                   | l _ k IH | p' IHp k IH ]; intros w; cbn [exec fst];
    try apply extends_refl; try apply IH.
  - apply extends_trans with (d2 := document (appendChild el w)); [ | apply IH].
    exists [el]. reflexivity.
  - apply (IH (write_console lv args w)).
  - apply (IH (add_listener l w)).
  - specialize (IHp w). destruct (exec p' w) as [w1 s]. cbn [fst] in IHp.
    apply extends_trans with (d2 := document w1); [exact IHp | ].
    rewrite <- (document_detach s w1). apply IH.
Qed.

Lemma handlers_all_True : forall w, handlers_all (fun _ => True) w.
Proof. intros w. split; apply Forall_forall; auto. Qed.

Lemma extends_run : forall acts w,
  extends (document w) (document (run acts w)).
Proof.
  intros acts w.
  apply (@history_run (fun _ => True) extends extends_refl extends_trans).
  - intros p _ w'. split; [apply extends_exec | ].
    split; [ | intros _; apply handlers_all_True].
    destruct (snd (exec p w')); simpl; auto.
  - auto.
  - apply handlers_all_True.
Qed.

(** C9.  A call of [loadCSS] changes the document by appending its link
    element, or not at all when the identifier test short-circuits; the
    handlers of the link leave the document as it is; and through every
    history of API calls and platform events the document only gains
    elements at its end, so no element, once there, is removed or altered. *)
Theorem loadCSS_only_inserts : forall cssPath id w,
  document (fst (exec (loadCSS cssPath id) w)) =
    document w ++
    (if already_loaded id (document w) then [] else [link_element cssPath id]) /\
  (forall o w', document (fst (exec (on_event cssPath o) w')) = document w') /\
  (forall acts, extends (document w) (document (run acts w))) /\
  (forall acts,
     firstn (List.length (document w)) (document (run acts w)) = document w).
Proof.
  intros cssPath id w. split; [ | split; [ | split]].
  - rewrite loadCSS_unfold.
    destruct (already_loaded id (document w)); cbn [fst].
    + now rewrite app_nil_r.
    + reflexivity.
  - intros [ | ] w'; reflexivity.
  - intros acts. apply extends_run.
  - intros acts. destruct (extends_run acts w) as [l ->].
    rewrite firstn_app, Nat.sub_diag, firstn_all. cbn [firstn].
    now rewrite app_nil_r.
Qed.

(* ------------------------------------------------------------------ *)
(** ** The discipline [checked]: look the identifier up, then append *)

Lemma checked_weaken : forall a p, checked a p ->
  forall b, incl a b -> checked b p.
Proof.
  induction 1 as [ a | a e | a i k _ IH1 _ IH2 | a el k Hin Hk _ | a n k Hk _
                 | a lv args k _ IH | a k _ IH | a k _ IH
                 | a l k Hl _ _ IH | a p k _ IHp Hk _ ]; intros b Hb;
    constructor; auto.
  apply IH2. intros j [-> | Hj]; [now left | right; auto].
Qed.

Lemma checked_seq : forall a p, checked a p ->
  forall q, checked [] q -> checked a (seq p q).
Proof.
  induction 1; intros q Hq; simpl; try (constructor; auto; fail).
  apply checked_weaken with (a := []); [exact Hq | intros j []].
Qed.

Lemma checked_try_catch : forall a p, checked a p ->
  forall h, (forall e, checked [] (h e)) -> checked a (try_catch p h).
Proof.
  induction 1; intros h Hh; simpl; try (constructor; auto; fail).
  apply checked_weaken with (a := []); [apply Hh | intros j []].
Qed.

Lemma checked_on_event : forall cssPath o, checked [] (on_event cssPath o).
Proof. intros cssPath [ | ]; repeat constructor. Qed.

Lemma checked_insert_link : forall cssPath id a,
  (forall i, id = Some i -> JS.truthy id = true -> In i a) ->
  checked a (insert_link cssPath id).
Proof.
  intros cssPath id a H. unfold insert_link. constructor.
  - intros i. cbn [el_id link_element].
    destruct (JS.truthy id) eqn:E; [ | discriminate]. auto.
  - intros n. constructor. apply checked_on_event.
Qed.

Lemma checked_loadCSS : forall cssPath id, checked [] (loadCSS cssPath id).
Proof.
  intros cssPath [i | ]; unfold loadCSS.
  - destruct (JS.truthy (Some i)) eqn:E.
    + constructor; [intros; constructor | ].
      apply checked_insert_link. intros j Hj _. inversion Hj. now left.
    + apply checked_insert_link. intros j _ Hj. congruence.
  - apply checked_insert_link. intros j Hj. discriminate.
Qed.

Lemma checked_loadGenericCSS_from : forall files i,
  checked [] (loadGenericCSS_from files i).
Proof.
  induction files as [ | f rest IH]; intros i; cbn [loadGenericCSS_from];
    [constructor | ].
  apply checked_try_catch; auto.
  apply checked_seq; [apply checked_loadCSS | repeat constructor].
Qed.

Lemma checked_autoLoadPageCSS : checked [] autoLoadPageCSS.
Proof.
  unfold autoLoadPageCSS. constructor. intros path.
  destruct (pageName_of path) as [name | ]; [ | constructor].
  destruct (JS.truthy (Some name) && negb (String.eqb name "")); [ | constructor].
  apply checked_try_catch; [ | repeat constructor].
  apply checked_seq; [apply checked_loadCSS | repeat constructor].
Qed.

Lemma checked_loadAllCSS_with : forall files, checked [] (loadAllCSS_with files).
Proof.
  intros files. unfold loadAllCSS_with.
  apply checked_try_catch; [ | repeat constructor].
  apply checked_seq; [apply checked_loadGenericCSS_from | ].
  apply checked_seq; [apply checked_autoLoadPageCSS | repeat constructor].
Qed.

Lemma checked_init : checked [] init.
Proof.
  unfold init. constructor. intros r.
  destruct (is_loading r); constructor;
    (apply checked_loadAllCSS_with || constructor).
Qed.

Lemma checked_api : forall c, checked [] (api_prog c).
Proof.
  intros [cssPath id | | | ]; cbn [api_prog].
  - apply checked_loadCSS.
  - apply checked_autoLoadPageCSS.
  - apply checked_loadGenericCSS_from.
  - apply checked_init.
Qed.

Lemma no_second_refl : forall id d, no_second id d d.
Proof. intros id d. unfold no_second. lia. Qed.

Lemma no_second_trans : forall id d1 d2 d3,
  no_second id d1 d2 -> no_second id d2 d3 -> no_second id d1 d3.
Proof. unfold no_second. intros. lia. Qed.

Lemma has_id_true : forall i el, has_id i el = true -> el_id el = Some i.
Proof.
  unfold has_id. intros i el H. destruct (el_id el) as [j | ]; [ | discriminate].
  apply String.eqb_eq in H. now subst.
Qed.

Lemma no_second_append : forall id doc el,
  id <> EmptyString ->
  (forall i, el_id el = Some i -> getElementById i doc = None) ->
  no_second id doc (doc ++ [el]).
Proof.
  intros id doc el Hid H. unfold no_second. rewrite count_id_app.
  destruct (has_id id el) eqn:E; [ | lia].
  apply has_id_true in E.
  rewrite (@getElementById_None_count id doc Hid (H id E)). simpl. lia.
Qed.

Lemma checked_exec : forall id, id <> EmptyString ->
  forall a p, checked a p -> forall w,
  (forall i, In i a -> getElementById i (document w) = None) ->
  no_second id (document w) (document (fst (exec p w))) /\
  status_all (checked []) (snd (exec p w)) /\
  (handlers_all (checked []) w -> handlers_all (checked []) (fst (exec p w))).
Proof.
  intros id Hid.
  induction 1 as [ a | a e | a i k _ IH1 _ IH2 | a el k Hin _ IH | a n k Hk _
                 | a lv args k _ IH | a k _ IH | a k _ IH
                 | a l k Hl _ _ IH | a p k _ IHp _ IHk ]; intros w Ha;
    cbn [exec].
  - split; [apply no_second_refl | split; [simpl; auto | auto]].
  - split; [apply no_second_refl | split; [simpl; auto | auto]].
  - destruct (getElementById i (document w)) as [e | ] eqn:E.
    + now apply IH1.
    + apply IH2. intros j [<- | Hj]; auto.
  - destruct (IH (List.length (document w)) (appendChild el w)) as [A [B C]].
    { intros j []. }
    split; [ | split; [exact B | exact C]].
    apply no_second_trans with (d2 := document (appendChild el w)); [ | exact A].
    apply no_second_append; auto.
  - split; [apply no_second_refl | split; [simpl; auto | auto]].
  - apply (IH (write_console lv args w)). exact Ha.
  - now apply IH.
  - now apply IH.
  - destruct (IH (add_listener l w) Ha) as [A [B C]].
    split; [exact A | split; [exact B | ]].
    intros [Hls Hws]. apply C. split; simpl; auto.
    apply Forall_app. split; auto.
  - destruct (IHp w Ha) as [A [B C]].
    destruct (exec p w) as [w1 s1]. cbn [fst snd] in *.
    destruct (IHk (detach s1 w1)) as [A' [B' C']].
    { intros j []. }
    rewrite document_detach in A'.
    split; [now apply no_second_trans with (d2 := document w1) | ].
    split; [exact B' | ].
    intros Hall. apply C'. specialize (C Hall).
    destruct s1 as [ | e | n k1]; cbn [detach]; auto.
    now apply handlers_all_detach.
Qed.

Lemma no_second_run : forall id acts w,
  id <> EmptyString -> quiescent w ->
  no_second id (document w) (document (run acts w)).
Proof.
  intros id acts w Hid Hq.
  apply (@history_run (checked []) (no_second id)
           (no_second_refl id) (@no_second_trans id)).
  - intros p Hp w'. apply (checked_exec Hid Hp). intros j [].
  - apply checked_api.
  - now apply quiescent_handlers_all.
Qed.

(** ** [loadCSS] with an identifier *)

Lemma truthy_Some : forall id, id <> EmptyString -> JS.truthy (Some id) = true.
Proof.
  intros id H. unfold JS.truthy. apply String.eqb_neq in H. now rewrite H.
Qed.

Lemma already_loaded_present : forall id doc,
  id <> EmptyString -> 1 <= count_id id doc ->
  already_loaded (Some id) doc = true.
Proof.
  intros id doc Hid Hc. unfold already_loaded. rewrite (truthy_Some Hid).
  destruct (count_pos_getElementById doc Hid Hc) as [e ->]. reflexivity.
Qed.

Lemma already_loaded_absent : forall id doc,
  count_id id doc = 0 -> already_loaded (Some id) doc = false.
Proof.
  intros id doc Hc. unfold already_loaded.
  rewrite (count_None_getElementById _ _ Hc). apply andb_false_r.
Qed.

Lemma count_id_link : forall id cssPath doc,
  id <> EmptyString ->
  count_id id (doc ++ [link_element cssPath (Some id)]) = S (count_id id doc).
Proof.
  intros id cssPath doc Hid.
  rewrite count_id_app, has_id_link, (truthy_Some Hid), String.eqb_refl.
  simpl. lia.
Qed.

(** C1 fails for the empty string as identifier: two calls append two links,
    and no element carries the identifier. *)
Lemma loadCSS_empty_id_appends_twice :
  List.length
    (document
       (run [Api (CallLoad "./a.css" (Some EmptyString));
             Api (CallLoad "./a.css" (Some EmptyString))]
            (blank_page Complete "/"))) = 2 /\
  count_id EmptyString
    (document
       (run [Api (CallLoad "./a.css" (Some EmptyString));
             Api (CallLoad "./a.css" (Some EmptyString))]
            (blank_page Complete "/"))) <> 1.
Proof. split; [reflexivity | vm_compute; discriminate]. Qed.

(** C1 (amended).  For every identifier other than the empty string: a call
    of [loadCSS] made when an element with the identifier exists resolves at
    once and changes nothing; two calls with the identifier, whatever the
    platform reported for the first in between, leave exactly one element
    with it; and in every history of API calls and platform events, on a page
    with no foreign listener or handler, the document never gains a second
    element with the identifier. *)
Theorem loadCSS_at_most_once : forall id,
  id <> EmptyString ->
  (forall cssPath w,
     1 <= count_id id (document w) ->
     exec (loadCSS cssPath (Some id)) w = (w, Done)) /\
  (forall cssPath1 cssPath2 w os,
     count_id id (document w) = 0 ->
     let w1 := fst (drive os (exec (loadCSS cssPath1 (Some id)) w)) in
     exec (loadCSS cssPath2 (Some id)) w1 = (w1, Done) /\
     count_id id (document w1) = 1) /\
  (forall acts w,
     quiescent w -> no_second id (document w) (document (run acts w))).
Proof.
  intros id Hid. split; [ | split].
  - intros cssPath w Hc.
    now rewrite loadCSS_unfold, (already_loaded_present _ Hid Hc).
  - intros cssPath1 cssPath2 w os Hc w1.
    assert (Hdoc : document w1 =
                   document w ++ [link_element cssPath1 (Some id)]).
    { subst w1. rewrite loadCSS_unfold, (already_loaded_absent _ _ Hc),
        exec_insert_link.
      destruct os as [ | [ | ] os]; cbn [drive]; try reflexivity.
      - rewrite exec_on_event_Load, drive_Done. reflexivity.
      - rewrite exec_on_event_Error, drive_Failed. reflexivity. }
    assert (Hone : count_id id (document w1) = 1).
    { rewrite Hdoc, (count_id_link _ _ Hid), Hc. reflexivity. }
    split; [ | exact Hone].
    rewrite loadCSS_unfold, (already_loaded_present _ Hid); [reflexivity | lia].
  - intros acts w Hq. now apply no_second_run.
Qed.

Lemma loadCSS_at_most_once_witness :
  "theme" <> EmptyString /\
  count_id "theme"
    (document
       (fst (drive [Error]
               (exec (loadCSS "./a.css" (Some "theme"))
                     (blank_page Complete "/"))))) = 1.
Proof.
  assert (H : "theme" <> EmptyString) by discriminate.
  split; [exact H | ].
  apply (proj1 (proj2 (loadCSS_at_most_once H))
           "./a.css" "./b.css" (blank_page Complete "/") [Error]).
  reflexivity.
Defined.

(* ------------------------------------------------------------------ *)
(** ** The discipline [serial]: one load at a time *)

Lemma serial_seq : forall p, serial p -> forall q, serial q -> serial (seq p q).
Proof.
  induction 1 as [ | e | i k _ IH | el k k' Hk _ IH | lv args k _ IH
                 | k _ IH | k _ IH ]; intros q Hq; simpl; auto;
    try (constructor; auto; fail).
  apply serial_Append with (k' := fun n o => seq (k' n o) q); auto.
  intros n. now rewrite Hk.
Qed.

Lemma serial_try_catch : forall p, serial p ->
  forall h, (forall e, serial (h e)) -> serial (try_catch p h).
Proof.
  induction 1 as [ | e | i k _ IH | el k k' Hk _ IH | lv args k _ IH
                 | k _ IH | k _ IH ]; intros h Hh; simpl; auto;
    try (constructor; auto; fail).
  apply serial_Append with (k' := fun n o => try_catch (k' n o) h); auto.
  intros n. now rewrite Hk.
Qed.

Lemma serial_on_event : forall cssPath o, serial (on_event cssPath o).
Proof. intros cssPath [ | ]; repeat constructor. Qed.

Lemma serial_insert_link : forall cssPath id, serial (insert_link cssPath id).
Proof.
  intros cssPath id. unfold insert_link.
  apply serial_Append with (k' := fun _ o => on_event cssPath o); auto.
  intros n o. apply serial_on_event.
Qed.

Lemma serial_loadCSS : forall cssPath id, serial (loadCSS cssPath id).
Proof.
  intros cssPath [i | ]; unfold loadCSS; try apply serial_insert_link.
  destruct (JS.truthy (Some i)); try apply serial_insert_link.
  constructor. intros [e | ]; [constructor | apply serial_insert_link].
Qed.

Lemma serial_loadGenericCSS_from : forall files i,
  serial (loadGenericCSS_from files i).
Proof.
  induction files as [ | f rest IH]; intros i; cbn [loadGenericCSS_from];
    [constructor | ].
  apply serial_try_catch; auto.
  apply serial_seq; [apply serial_loadCSS | repeat constructor].
Qed.

Lemma serial_autoLoadPageCSS : serial autoLoadPageCSS.
Proof.
  unfold autoLoadPageCSS. constructor. intros path.
  destruct (pageName_of path) as [name | ]; [ | constructor].
  destruct (JS.truthy (Some name) && negb (String.eqb name "")); [ | constructor].
  apply serial_try_catch; [ | repeat constructor].
  apply serial_seq; [apply serial_loadCSS | repeat constructor].
Qed.

Lemma serial_loadAllCSS_with : forall files, serial (loadAllCSS_with files).
Proof.
  intros files. unfold loadAllCSS_with.
  apply serial_try_catch; [ | repeat constructor].
  apply serial_seq; [apply serial_loadGenericCSS_from | ].
  apply serial_seq; [apply serial_autoLoadPageCSS | repeat constructor].
Qed.

Lemma serial_exec : forall p, serial p -> forall w,
  waiting (fst (exec p w)) = waiting w /\
  listeners (fst (exec p w)) = listeners w /\
  match snd (exec p w) with
  | Waiting n k =>
      S n = List.length (document (fst (exec p w))) /\ forall o, serial (k o)
  | _ => True
  end.
Proof.
  induction 1 as [ | e | i k _ IH | el k k' Hk Hs _ | lv args k _ IH
                 | k _ IH | k _ IH ]; intros w; cbn [exec]; auto;
    try (repeat split; auto; fail).
  - rewrite Hk. cbn [exec fst snd]. repeat split; auto.
    cbn [document appendChild]. rewrite length_app. simpl. lia.
  - apply (IH (write_console lv args w)).
Qed.

Lemma serial_start : forall p w,
  serial p -> waiting w = [] ->
  one_in_flight (start p w) /\ listeners (start p w) = listeners w.
Proof.
  intros p w Hp Hw. unfold start.
  destruct (serial_exec Hp w) as [A [B C]].
  destruct (exec p w) as [w1 s1]. cbn [fst snd] in *.
  unfold one_in_flight.
  destruct s1 as [ | e | n k]; cbn [detach].
  - cbn. rewrite A, Hw. auto.
  - cbn. rewrite A, Hw. auto.
  - cbn. rewrite A, Hw. cbn. auto.
Qed.

Lemma take_handler_single : forall n m (k : outcome -> prog),
  take_handler n [(m, k)] = if Nat.eqb m n then Some (k, []) else None.
Proof. intros n m k. simpl. destruct (Nat.eqb m n); reflexivity. Qed.

Lemma init_page_fire : forall ev w, init_page w -> init_page (fire ev w).
Proof.
  intros [n o | ] w [Hone Hload]; unfold fire.
  - destruct (take_handler n (waiting w)) as [[k rest] | ] eqn:E;
      [ | split; assumption].
    unfold one_in_flight in Hone.
    destruct (waiting w) as [ | [m k0] [ | h ws]] eqn:Ew;
      try contradiction; try discriminate.
    rewrite take_handler_single in E.
    destruct (Nat.eqb m n); [ | discriminate].
    inversion E; subst k0 rest. destruct Hone as [Hn Hk].
    destruct (@serial_start (k o) (set_waiting [] w) (Hk o) eq_refl) as [A B].
    split; [exact A | ].
    rewrite readyState_start, B. cbn [readyState listeners set_waiting].
    intros HL. specialize (Hload HL).
    destruct (listeners w) as [ | l [ | l' ls]]; auto.
    destruct Hload as [Hw _]. discriminate.
  - destruct (readyState w) eqn:E; cbn [is_loading];
      try (split; [exact Hone | intros HL; rewrite E in HL; discriminate]).
    specialize (Hload eq_refl).
    destruct (listeners w) as [ | l [ | l' ls]] eqn:EL; try contradiction.
    + split; [exact Hone | intros HL; discriminate].
    + destruct Hload as [Hw Hl].
      destruct (@serial_start l (set_readyState Interactive w) Hl Hw) as [A B].
      split; [exact A | ].
      unfold dispatch. cbn [fold_left]. rewrite readyState_start.
      intros HL. discriminate.
Qed.

Lemma init_page_fires : forall evs w, init_page w -> init_page (fires evs w).
Proof.
  induction evs as [ | ev evs IH]; intros w Hw; [exact Hw | ].
  unfold fires in *. simpl. apply IH. now apply init_page_fire.
Qed.

Lemma init_page_start : forall p w,
  serial p -> quiescent w -> init_page (start p w).
Proof.
  intros p w Hp [Hl Hw].
  destruct (@serial_start p w Hp Hw) as [A B].
  split; [exact A | ]. intros _. now rewrite B, Hl.
Qed.

Lemma init_page_init : forall w, quiescent w -> init_page (fst (exec init w)).
Proof.
  intros w Hq. rewrite exec_init.
  destruct (is_loading (readyState w)); cbn [fst].
  - destruct Hq as [Hl Hw]. split.
    + unfold one_in_flight. cbn. now rewrite Hw.
    + intros _. cbn [waiting listeners add_listener]. rewrite Hl, Hw.
      split; [reflexivity | apply (serial_loadAllCSS_with commonCSSFiles)].
  - apply init_page_start; [apply serial_loadAllCSS_with | exact Hq].
Qed.

Lemma one_in_flight_bound : forall w,
  one_in_flight w ->
  List.length (waiting w) <= 1 /\
  forall n k, In (n, k) (waiting w) -> S n = List.length (document w).
Proof.
  intros w H. unfold one_in_flight in H.
  destruct (waiting w) as [ | [m k] [ | h ws]]; try contradiction.
  - split; [simpl; lia | intros n k []].
  - split; [simpl; lia | ].
    intros n k' [E | []]. inversion E; subst. apply H.
Qed.

(** While an awaited function is pending, what follows it has not begun. *)
Lemma drive_seq_pending : forall os p q w,
  is_waiting (snd (drive os (exec p w))) = true ->
  fst (drive os (exec (seq p q) w)) = fst (drive os (exec p w)) /\
  is_waiting (snd (drive os (exec (seq p q) w))) = true.
Proof.
  induction os as [ | o os IH]; intros p q w H; rewrite exec_seq;
    destruct (exec p w) as [w1 [ | e | n k]]; simpl in H; try discriminate;
    try (rewrite ?drive_Done, ?drive_Failed in H; discriminate).
  - split; reflexivity.
  - rewrite drive_Waiting. now apply IH.
Qed.

Lemma drive_try_catch_pending : forall os p h w,
  is_waiting (snd (drive os (exec p w))) = true ->
  fst (drive os (exec (try_catch p h) w)) = fst (drive os (exec p w)) /\
  is_waiting (snd (drive os (exec (try_catch p h) w))) = true.
Proof.
  induction os as [ | o os IH]; intros p h w H; rewrite exec_try_catch;
    destruct (exec p w) as [w1 [ | e | n k]]; simpl in H; try discriminate;
    try (rewrite ?drive_Done, ?drive_Failed in H; discriminate).
  - split; reflexivity.
  - rewrite drive_Waiting. now apply IH.
Qed.

(** C8.  The loads of [init] happen one at a time: on a page where [init] is
    the only thing scheduled, after any sequence of platform events at most
    one link awaits its event and it is the element appended last, so every
    earlier attempt, of a candidate or of the generic phase, had completed
    when the next began (for the sequence over any candidate list as well);
    and as long as [loadGenericCSS] is pending the combined sequence has done
    nothing beyond it: [autoLoadPageCSS] has not begun. *)
Theorem init_phases_sequential : forall w,
  quiescent w ->
  (forall evs,
     List.length (waiting (fires evs (fst (exec init w)))) <= 1 /\
     forall n k,
       In (n, k) (waiting (fires evs (fst (exec init w)))) ->
       S n = List.length (document (fires evs (fst (exec init w))))) /\
  (forall files evs,
     List.length (waiting (fires evs (start (loadAllCSS_with files) w))) <= 1 /\
     forall n k,
       In (n, k) (waiting (fires evs (start (loadAllCSS_with files) w))) ->
       S n =
       List.length (document (fires evs (start (loadAllCSS_with files) w)))) /\
  (forall files os,
     is_waiting (snd (drive os (exec (loadGenericCSS_from files 0) w))) = true ->
     fst (drive os (exec (loadAllCSS_with files) w)) =
       fst (drive os (exec (loadGenericCSS_from files 0) w)) /\
     is_waiting (snd (drive os (exec (loadAllCSS_with files) w))) = true).
Proof.
  intros w Hq. split; [ | split].
  - intros evs. apply one_in_flight_bound.
    apply (init_page_fires evs (init_page_init Hq)).
  - intros files evs. apply one_in_flight_bound.
    apply (init_page_fires evs
             (init_page_start (serial_loadAllCSS_with files) Hq)).
  - intros files os H. unfold loadAllCSS_with.
    destruct (drive_seq_pending os _
                (autoLoadPageCSS ;; Console LogLevel ["CSS loading complete"] Ret)
                w H) as [A B].
    destruct (drive_try_catch_pending os _
                (fun error =>
                   Console ErrorLevel
                     ["Error during CSS loading:"; error_message error] Ret)
                w B) as [C D].
    split; [now rewrite C, A | exact D].
Qed.

Lemma init_phases_sequential_witness :
  quiescent (blank_page Complete "/index.html") /\
  List.length
    (waiting (fires [LinkEvent 0 Error]
                    (fst (exec init (blank_page Complete "/index.html"))))) <= 1.
Proof.
  assert (H : quiescent (blank_page Complete "/index.html")) by (split; reflexivity).
  split; [exact H | ].
  apply (proj1 (init_phases_sequential H) [LinkEvent 0 Error]).
Defined.

(* ------------------------------------------------------------------ *)
(** ** Worked runs *)

(** A page [/x/index.html] that is still loading: [init] waits for
    [DOMContentLoaded]; then [style.css] fails and [index.css] loads. *)
Example run_index_page :
  let w := fires [DOMContentLoaded; LinkEvent 0 Error; LinkEvent 1 Load]
                 (start init (blank_page Loading "/x/index.html")) in
  document w =
    [link_element "./style.css" (Some "generic-css-0");
     link_element "./index.css" (Some "page-css-index")] /\
  console w =
    [(WarnLevel, ["Failed to load CSS:"; "./style.css"]);
     (LogLevel, ["CSS loaded successfully:"; "./index.css"]);
     (LogLevel, ["Page-specific CSS loaded for: index"]);
     (LogLevel, ["CSS loading complete"])] /\
  unhandled w = [] /\ waiting w = [].
Proof. repeat split. Qed.

(** The page link is not inserted before the generic link has its event. *)
Example run_index_page_pending :
  let w := fires [DOMContentLoaded; LinkEvent 1 Load]
                 (start init (blank_page Loading "/x/index.html")) in
  document w = [link_element "./style.css" (Some "generic-css-0")] /\
  console w = [].
Proof. repeat split. Qed.

(** A rejection of [loadCSS] that nobody catches is an unhandled one. *)
Example run_load_uncaught :
  unhandled (fires [LinkEvent 0 Error]
                   (start (loadCSS "./theme.css" None) (blank_page Complete "/")))
  = [JsError "Failed to load CSS: ./theme.css"].
Proof. reflexivity. Qed.

(** A second [loadGenericCSS] after a failed one finds the identifier and
    reports success without a new attempt. *)
Example run_loadGeneric_again :
  let w1 := fst (drive [Error] (exec loadGenericCSS (blank_page Complete "/"))) in
  exec loadGenericCSS w1 =
    (write_console LogLevel ["Generic CSS loaded: style.css"] w1, Done).
Proof. reflexivity. Qed.

(* ------------------------------------------------------------------ *)
(** ** More on the page name *)

Lemma contains_char_append : forall c a b,
  contains_char c (a ++ b) = contains_char c a || contains_char c b.
Proof.
  induction a as [ | d a IH]; intros b; simpl; [reflexivity | ].
  now rewrite IH, orb_assoc.
Qed.

Lemma split_acc_pieces : forall sep s cur,
  contains_char sep cur = false ->
  Forall (fun x => contains_char sep x = false) (JS.split_acc sep cur s).
Proof.
  induction s as [ | c s IH]; intros cur Hc; simpl.
  - constructor; [exact Hc | constructor].
  - destruct (Ascii.eqb c sep) eqn:E.
    + constructor; [exact Hc | now apply IH].
    + apply IH. rewrite contains_char_append, Hc. simpl. now rewrite E.
Qed.

Lemma pop_In : forall l x, JS.pop l = Some x -> In x l.
Proof.
  induction l as [ | y l IH]; intros x H; [discriminate | ].
  destruct l as [ | z l]; [inversion H; now left | ].
  right. apply IH. exact H.
Qed.

Lemma contains_char_drop : forall c n s,
  contains_char c s = false -> contains_char c (JS.drop n s) = false.
Proof.
  induction n as [ | n IH]; intros [ | d s] H; simpl; auto.
  simpl in H. apply orb_false_iff in H. now apply IH.
Qed.

Lemma contains_char_replace : forall c pat rep s,
  contains_char c rep = false -> contains_char c s = false ->
  contains_char c (JS.replace pat rep s) = false.
Proof.
  intros c pat rep s Hrep. induction s as [ | d s IH]; intros Hs.
  - simpl. destruct (JS.startsWith pat EmptyString); [ | reflexivity].
    rewrite contains_char_append, Hrep. simpl. now apply contains_char_drop.
  - cbn [JS.replace]. destruct (JS.startsWith pat (String d s)).
    + rewrite contains_char_append, Hrep. simpl. now apply contains_char_drop.
    + simpl in *. apply orb_false_iff in Hs. destruct Hs as [Hd Hs].
      now rewrite Hd, IH.
Qed.

Lemma split_acc_no_sep : forall sep s cur,
  contains_char sep s = false -> JS.split_acc sep cur s = [(cur ++ s)%string].
Proof.
  induction s as [ | c s IH]; intros cur H; simpl.
  - f_equal. clear. induction cur as [ | d cur IH]; simpl; congruence.
  - simpl in H. apply orb_false_iff in H. destruct H as [Hc Hs].
    rewrite Hc, (IH (cur ++ String c EmptyString)%string Hs). f_equal.
    clear. induction cur as [ | d cur IH]; simpl; congruence.
Qed.

Lemma pop_cons : forall x l, l <> [] -> JS.pop (x :: l) = JS.pop l.
Proof. intros x [ | y l] H; [congruence | reflexivity]. Qed.

Lemma pop_split_acc_last : forall sep seg dir cur,
  contains_char sep seg = false ->
  JS.pop (JS.split_acc sep cur (dir ++ String sep seg)) = Some seg.
Proof.
  intros sep seg. induction dir as [ | c dir IH]; intros cur H; simpl.
  - rewrite Ascii.eqb_refl, (@split_acc_no_sep sep seg EmptyString H).
    reflexivity.
  - destruct (Ascii.eqb c sep).
    + rewrite pop_cons; [now apply IH | apply split_acc_not_nil].
    + now apply IH.
Qed.

Lemma replace_html_no_dot : forall s,
  contains_char "." s = false -> JS.replace ".html" "" s = s.
Proof.
  induction s as [ | c s IH]; intros H; [reflexivity | ].
  simpl in H. apply orb_false_iff in H. destruct H as [Hc Hs].
  cbn [JS.replace JS.startsWith].
  rewrite Ascii.eqb_sym, Hc. cbn [andb]. now rewrite IH.
Qed.

Lemma replace_html_suffix : forall base,
  contains_char "." base = false ->
  JS.replace ".html" "" (base ++ ".html") = base.
Proof.
  induction base as [ | c base IH]; intros H; [reflexivity | ].
  simpl in H. apply orb_false_iff in H. destruct H as [Hc Hs].
  cbn [append JS.replace JS.startsWith].
  rewrite Ascii.eqb_sym, Hc. cbn [andb]. now rewrite IH.
Qed.

(** X2.  The page name never holds a slash: it comes from the last piece of
    the path split at the slashes, and removing [.html] adds none.  So the
    stylesheet [autoLoadPageCSS] asks for is a file of the current
    directory. *)
Theorem pageName_has_no_slash : forall path,
  exists name,
    pageName_of path = Some name /\ contains_char "/" name = false.
Proof.
  intros path. unfold pageName_of.
  destruct (JS.pop (JS.split "/" path)) as [segment | ] eqn:E.
  - exists (JS.replace ".html" "" segment). split; [reflexivity | ].
    apply contains_char_replace; [reflexivity | ].
    apply pop_In in E.
    pose proof (@split_acc_pieces "/" path EmptyString eq_refl) as HF.
    rewrite Forall_forall in HF. now apply HF.
  - exfalso. unfold JS.split in E.
    rewrite pop_last in E; [discriminate | apply split_acc_not_nil].
Qed.

(** X3.  On a path that ends with a slash (a directory URL)
    [autoLoadPageCSS] does nothing at all: the page is unchanged and the
    function has completed. *)
Theorem autoLoadPageCSS_directory_path : forall w dir,
  pathname w = (dir ++ "/")%string ->
  pageName_of (pathname w) = Some EmptyString /\
  exec autoLoadPageCSS w = (w, Done).
Proof.
  intros w dir H.
  assert (Hn : pageName_of (pathname w) = Some EmptyString).
  { rewrite H. unfold pageName_of, JS.split.
    now rewrite (@pop_split_acc_last "/" EmptyString dir EmptyString eq_refl). }
  split; [exact Hn | ].
  unfold autoLoadPageCSS. cbn [exec]. now rewrite Hn.
Qed.

Lemma autoLoadPageCSS_directory_path_witness :
  exec autoLoadPageCSS (blank_page Complete "/app/docs/") =
  (blank_page Complete "/app/docs/", Done).
Proof.
  apply (@autoLoadPageCSS_directory_path (blank_page Complete "/app/docs/")
           "/app/docs").
  reflexivity.
Defined.

(** X4.  When the last segment of the path is [base] or [base.html], with
    no dot and no slash in [base], the page name is [base]: for ordinary
    file names the first [.html] is the suffix, and a name without
    extension is kept as it is. *)
Theorem pageName_of_plain_file : forall dir base,
  contains_char "/" base = false ->
  contains_char "." base = false ->
  pageName_of (dir ++ "/" ++ base ++ ".html") = Some base /\
  pageName_of (dir ++ "/" ++ base) = Some base.
Proof.
  intros dir base Hs Hd. unfold pageName_of, JS.split. cbn [append]. split.
  - rewrite (@pop_split_acc_last "/" (base ++ ".html") dir EmptyString).
    + now rewrite replace_html_suffix.
    + rewrite contains_char_append, Hs. reflexivity.
  - rewrite (@pop_split_acc_last "/" base dir EmptyString Hs).
    now rewrite replace_html_no_dot.
Qed.

Lemma pageName_of_plain_file_witness :
  pageName_of "/foo/bar/dashboard.html" = Some "dashboard" /\
  pageName_of "/foo/bar/dashboard" = Some "dashboard".
Proof.
  apply (@pageName_of_plain_file "/foo/bar" "dashboard"); reflexivity.
Defined.

(* ------------------------------------------------------------------ *)
(** ** More on [autoLoadPageCSS] and [loadGenericCSS] *)

(** X1.  [autoLoadPageCSS] never rejects, on any page and whatever the
    platform reports, and it has resolved as soon as its one link is
    answered. *)
Theorem autoLoadPageCSS_never_rejects : forall w os,
  rejected (snd (drive os (exec autoLoadPageCSS w))) = false /\
  (1 <= List.length os -> snd (drive os (exec autoLoadPageCSS w)) = Done).
Proof.
  intros w os.
  assert (Hrej : rejected (snd (drive os (exec autoLoadPageCSS w))) = false)
    by apply settles_never_rejects, settles_autoLoadPageCSS.
  split; [exact Hrej | ].
  intros Hle. apply settled_resolved; [exact Hrej | ].
  apply within_completes with (n := 1); [apply within_autoLoadPageCSS | exact Hle].
Qed.

Lemma autoLoadPageCSS_never_rejects_witness :
  snd (drive [Error] (exec autoLoadPageCSS (blank_page Complete "/index.html")))
  = Done.
Proof.
  apply (autoLoadPageCSS_never_rejects (blank_page Complete "/index.html")
           [Error]).
  simpl. lia.
Defined.

Lemma page_id_absent_not_loaded : forall name doc,
  getElementById ("page-css-" ++ name)%string doc = None ->
  already_loaded (Some ("page-css-" ++ name)%string) doc = false.
Proof. intros name doc H. unfold already_loaded. rewrite H. apply andb_false_r. Qed.

(** X5.  What [autoLoadPageCSS] reports, for a page with a name and no
    element with the page identifier yet: it inserts the page link; when the
    link loads it logs the load and [Page-specific CSS loaded for: name];
    when the link fails it logs the warning and
    [No page-specific CSS found for: name]; it resolves in both cases and the
    link stays in the document. *)
Theorem autoLoadPageCSS_reports : forall w name,
  pageName_of (pathname w) = Some name -> name <> EmptyString ->
  getElementById ("page-css-" ++ name)%string (document w) = None ->
  drive [Load] (exec autoLoadPageCSS w) =
    (write_console LogLevel [("Page-specific CSS loaded for: " ++ name)%string]
       (write_console LogLevel
          ["CSS loaded successfully:"; ("./" ++ name ++ ".css")%string]
          (appendChild (page_link name) w)),
     Done) /\
  drive [Error] (exec autoLoadPageCSS w) =
    (write_console LogLevel
       [("No page-specific CSS found for: " ++ name)%string]
       (write_console WarnLevel
          ["Failed to load CSS:"; ("./" ++ name ++ ".css")%string]
          (appendChild (page_link name) w)),
     Done).
Proof.
  intros w name Hn Hne Hp.
  rewrite (exec_autoLoadPageCSS_named w Hn Hne).
  rewrite exec_try_catch, exec_seq, loadCSS_unfold.
  rewrite (page_id_absent_not_loaded _ _ Hp), exec_insert_link.
  split; rewrite drive_Waiting, exec_try_catch, exec_seq.
  - rewrite exec_on_event_Load. reflexivity.
  - rewrite exec_on_event_Error. reflexivity.
Qed.

Lemma autoLoadPageCSS_reports_witness :
  console
    (fst (drive [Error]
            (exec autoLoadPageCSS (blank_page Complete "/x/about.html")))) =
  [(WarnLevel, ["Failed to load CSS:"; "./about.css"]);
   (LogLevel, ["No page-specific CSS found for: about"])].
Proof.
  rewrite (proj2 (@autoLoadPageCSS_reports (blank_page Complete "/x/about.html")
                    "about" eq_refl ltac:(discriminate) eq_refl)).
  reflexivity.
Defined.

Lemma generic_link_found : forall cssPath doc,
  already_loaded (Some (generic_id 0))
                 (doc ++ [link_element cssPath (Some (generic_id 0))]) = true.
Proof.
  intros cssPath doc. unfold already_loaded. rewrite truthy_generic_id.
  destruct (@getElementById_app_Some (generic_id 0) doc
              (link_element cssPath (Some (generic_id 0)))
              (@generic_id_not_empty 0)) as [e ->]; [ | reflexivity].
  rewrite has_id_link, truthy_generic_id. apply String.eqb_refl.
Qed.

(** X6.  [loadGenericCSS] does not retry.  When an element with the
    identifier of the first candidate exists it inserts nothing, tries no
    other candidate and logs [Generic CSS loaded]; and that is what a second
    call finds after a first one, whether the first attempt loaded, failed
    or is still pending. *)
Theorem loadGenericCSS_does_not_retry : forall w,
  (already_loaded (Some (generic_id 0)) (document w) = true ->
   exec loadGenericCSS w =
     (write_console LogLevel ["Generic CSS loaded: style.css"] w, Done)) /\
  (already_loaded (Some (generic_id 0)) (document w) = false ->
   forall os,
     exec loadGenericCSS (fst (drive os (exec loadGenericCSS w))) =
       (write_console LogLevel ["Generic CSS loaded: style.css"]
          (fst (drive os (exec loadGenericCSS w))), Done)).
Proof.
  intros w.
  assert (Hyes : forall w',
    already_loaded (Some (generic_id 0)) (document w') = true ->
    exec loadGenericCSS w' =
      (write_console LogLevel ["Generic CSS loaded: style.css"] w', Done)).
  { intros w' H. unfold loadGenericCSS, commonCSSFiles.
    now rewrite exec_loadGenericCSS_from_cons, H. }
  split; [apply Hyes | ].
  intros Hno os. apply Hyes.
  unfold loadGenericCSS, commonCSSFiles.
  rewrite exec_loadGenericCSS_from_cons, Hno.
  destruct os as [ | [ | ] os].
  - rewrite drive_nil. apply generic_link_found.
  - rewrite drive_Waiting, exec_try_catch, exec_seq, exec_on_event_Load.
    cbn [exec]. rewrite drive_Done. apply generic_link_found.
  - rewrite drive_Waiting, exec_try_catch, exec_seq, exec_on_event_Error.
    cbn [exec loadGenericCSS_from]. rewrite drive_Done. apply generic_link_found.
Qed.

Lemma loadGenericCSS_does_not_retry_witness :
  exec loadGenericCSS
       (fst (drive [Error] (exec loadGenericCSS (blank_page Complete "/")))) =
  (write_console LogLevel ["Generic CSS loaded: style.css"]
     (fst (drive [Error] (exec loadGenericCSS (blank_page Complete "/")))),
   Done).
Proof.
  apply (proj2 (loadGenericCSS_does_not_retry (blank_page Complete "/"))
           eq_refl [Error]).
Defined.

(** X8.  The identifiers of the candidates are pairwise distinct, and none
    is the identifier of a page link: two candidates, or a candidate and the
    page stylesheet, never pass for one another in the identifier test. *)
Theorem generic_ids_distinct : forall i j name,
  String.eqb (generic_id i) (generic_id j) = Nat.eqb i j /\
  String.eqb (generic_id i) ("page-css-" ++ name) = false.
Proof.
  intros i j name. split; [ | reflexivity].
  destruct (Nat.eqb i j) eqn:E.
  - apply Nat.eqb_eq in E. subst. apply String.eqb_refl.
  - apply String.eqb_neq. intros H. apply generic_id_inj in H.
    apply Nat.eqb_neq in E. contradiction.
Qed.

(* ------------------------------------------------------------------ *)
(** ** Rejections, insertions and [console.error] *)

Lemma settles_api : forall c,
  is_load_call (Api c) = false -> settles false (api_prog c).
Proof.
  intros [cssPath id | | | ] H; cbn [api_prog]; try discriminate.
  - apply settles_autoLoadPageCSS.
  - apply settles_loadGenericCSS_from.
  - apply settles_init.
Qed.

Lemma settles_run : forall acts w,
  forallb (fun a => negb (is_load_call a)) acts = true ->
  handlers_all (settles false) w ->
  handlers_all (settles false) (run acts w) /\
  unhandled (run acts w) = unhandled w.
Proof.
  induction acts as [ | a acts IH]; intros w Ha Hw; [now split | ].
  cbn [forallb] in Ha. apply andb_true_iff in Ha. destruct Ha as [Ha Hacts].
  assert (Hstep : handlers_all (settles false) (act a w) /\
                  unhandled (act a w) = unhandled w).
  { destruct a as [c | ev]; cbn [act].
    - apply settles_start; [ | exact Hw].
      apply settles_api. now apply negb_true_iff.
    - now apply settles_fire. }
  destruct Hstep as [A B]. destruct (IH (act a w) Hacts A) as [C D].
  split; [exact C | ]. unfold run in *. simpl. now rewrite D.
Qed.

(** X7.  Of the four operations only [load] can leave a rejection behind.
    On a page without foreign listeners and handlers, no history of calls of
    [autoLoad], [loadGeneric] and [init] and of platform events produces an
    unhandled rejection; a call of [load] whose result nobody handles
    produces one when its link fails. *)
Theorem only_load_rejects : forall w,
  quiescent w ->
  (forall acts,
     forallb (fun a => negb (is_load_call a)) acts = true ->
     unhandled (run acts w) = unhandled w) /\
  (forall cssPath,
     unhandled
       (run [Api (CallLoad cssPath None);
             Platform (LinkEvent (List.length (document w)) Error)] w) =
     unhandled w ++ [JsError ("Failed to load CSS: " ++ cssPath)%string]).
Proof.
  intros w Hq. split.
  - intros acts Ha.
    apply settles_run; [exact Ha | now apply quiescent_handlers_all].
  - intros cssPath. destruct Hq as [_ Hw].
    unfold run. cbn [fold_left act api_prog].
    assert (E : start (loadCSS cssPath None) w =
                set_waiting
                  (waiting w ++ [(List.length (document w), on_event cssPath)])
                  (appendChild (link_element cssPath None) w)) by reflexivity.
    rewrite E. unfold fire. cbn [waiting set_waiting]. rewrite Hw.
    cbn [app take_handler]. rewrite Nat.eqb_refl. reflexivity.
Qed.

Lemma only_load_rejects_witness :
  quiescent (blank_page Loading "/index.html") /\
  unhandled
    (run [Api CallInit; Api CallAutoLoad; Platform DOMContentLoaded;
          Platform (LinkEvent 0 Error); Platform (LinkEvent 1 Error);
          Api CallLoadGeneric]
         (blank_page Loading "/index.html")) = [].
Proof.
  assert (H : quiescent (blank_page Loading "/index.html")) by (split; reflexivity).
  split; [exact H | ].
  apply (proj1 (only_load_rejects H)). reflexivity.
Defined.

(** A serial function appends an element exactly when it stops pending. *)
Lemma serial_exec_inserts : forall p, serial p -> forall w,
  List.length (document (fst (exec p w))) =
  List.length (document w) + (if is_waiting (snd (exec p w)) then 1 else 0).
Proof.
  induction 1 as [ | e | i k _ IH | el k k' Hk Hs _ | lv args k _ IH
                 | k _ IH | k _ IH ]; intros w; cbn [exec]; auto;
    try (cbn; lia).
  - rewrite Hk. cbn. rewrite length_app. reflexivity.
  - apply (IH (write_console lv args w)).
Qed.

Lemma serial_within_drive : forall os n w s,
  status_all serial s -> status_within n s ->
  List.length (document (fst (drive os (w, s)))) +
    (if is_waiting s then 1 else 0) <= List.length (document w) + n.
Proof.
  induction os as [ | o os IH]; intros n w s Hs Hn.
  - destruct s as [ | e | m k]; cbn; try lia.
    destruct Hn as [n' [-> _]]. lia.
  - destruct s as [ | e | m k]; cbn [drive is_waiting fst]; try lia.
    destruct Hn as [n' [-> Hk]].
    pose proof (serial_exec_inserts (Hs o) w) as Hlen.
    pose proof (within_exec (Hk o) w) as Hn'.
    destruct (serial_exec (Hs o) w) as [_ [_ Hs']].
    destruct (exec (k o) w) as [w' s']. cbn [fst snd] in *.
    assert (Hall : status_all serial s').
    { destruct s'; simpl; auto. apply Hs'. }
    pose proof (@IH n' w' s' Hall Hn'). lia.
Qed.

(** X9.  A run of the combined sequence inserts at most one element per
    candidate and one for the page, two for the script as it is, whatever
    the platform reports; [loadGenericCSS] alone inserts at most one per
    candidate and [autoLoadPageCSS] at most one. *)
Theorem sequence_inserts_bounded : forall files w os,
  List.length (document (fst (drive os (exec (loadAllCSS_with files) w)))) <=
    List.length (document w) + S (List.length files) /\
  List.length (document (fst (drive os (exec (loadGenericCSS_from files 0) w))))
    <= List.length (document w) + List.length files /\
  List.length (document (fst (drive os (exec autoLoadPageCSS w)))) <=
    List.length (document w) + 1 /\
  List.length (document (fst (drive os (exec loadAllCSS w)))) <=
    List.length (document w) + 2.
Proof.
  assert (H : forall p n, serial p -> within n p -> forall w os,
    List.length (document (fst (drive os (exec p w)))) <=
    List.length (document w) + n).
  { intros p n Hs Hn w os.
    pose proof (serial_exec_inserts Hs w) as Hlen.
    pose proof (within_exec Hn w) as Hn'.
    destruct (serial_exec Hs w) as [_ [_ Hs']].
    destruct (exec p w) as [w' s']. cbn [fst snd] in *.
    assert (Hall : status_all serial s').
    { destruct s'; simpl; auto. apply Hs'. }
    pose proof (@serial_within_drive os n w' s' Hall Hn'). lia. }
  intros files w os. repeat split.
  - apply H; [apply serial_loadAllCSS_with | apply within_loadAllCSS_with].
  - apply H; [apply serial_loadGenericCSS_from | apply within_loadGenericCSS_from].
  - apply H; [apply serial_autoLoadPageCSS | apply within_autoLoadPageCSS].
  - apply H; [apply serial_loadAllCSS_with
             | apply (within_loadAllCSS_with commonCSSFiles)].
Qed.

Lemma error_lines_write : forall lv args w,
  lv <> ErrorLevel ->
  error_lines (console (write_console lv args w)) = error_lines (console w).
Proof.
  intros lv args w H. unfold error_lines. cbn [console write_console].
  rewrite filter_app. cbn [filter fst].
  destruct lv; [ | | congruence]; apply app_nil_r.
Qed.

Lemma console_detach : forall s w, console (detach s w) = console w.
Proof. intros [ | e | n k] w; reflexivity. Qed.

Lemma calm_exec : forall p, calm p -> forall w,
  error_lines (console (fst (exec p w))) = error_lines (console w) /\
  status_all calm (snd (exec p w)).
Proof.
  induction 1 as [ | e | i k _ IH | el k _ IH | n k Hk _ | lv args k Hlv _ IH
                 | k _ IH | k _ IH | l k _ _ _ IH | p k _ IHp _ IHk ];
    intros w; cbn [exec]; try (split; [reflexivity | simpl; auto]; fail);
    try apply IH.
  - apply (IH (List.length (document w)) (appendChild el w)).
  - destruct (IH (write_console lv args w)) as [A B].
    split; [ | exact B]. now rewrite A, error_lines_write.
  - apply (IH (add_listener l w)).
  - destruct (IHp w) as [A _]. destruct (exec p w) as [w1 s1].
    cbn [fst] in A. destruct (IHk (detach s1 w1)) as [C D].
    split; [ | exact D]. now rewrite C, console_detach.
Qed.

Lemma calm_drive : forall os w s,
  status_all calm s ->
  error_lines (console (fst (drive os (w, s)))) = error_lines (console w).
Proof.
  induction os as [ | o os IH]; intros w s Hs; [reflexivity | ].
  destruct s as [ | e | n k]; try reflexivity.
  rewrite drive_Waiting. destruct (calm_exec (Hs o) w) as [A B].
  destruct (exec (k o) w) as [w' s']. cbn [fst snd] in *.
  now rewrite (IH w' s' B).
Qed.

Lemma calm_seq : forall p, calm p -> forall q, calm q -> calm (seq p q).
Proof. induction 1; intros q Hq; simpl; auto; constructor; auto. Qed.

Lemma calm_try_catch : forall p, calm p ->
  forall h, (forall e, calm (h e)) -> calm (try_catch p h).
Proof. induction 1; intros h Hh; simpl; auto; constructor; auto. Qed.

Lemma calm_log : forall args, calm (Console LogLevel args Ret).
Proof. intros args. constructor; [discriminate | constructor]. Qed.

Lemma calm_loadCSS : forall cssPath id, calm (loadCSS cssPath id).
Proof.
  assert (Hi : forall cssPath id, calm (insert_link cssPath id)).
  { intros cssPath id. constructor. intros n. constructor. intros [ | ].
    - apply calm_log.
    - constructor; [discriminate | constructor]. }
  intros cssPath [i | ]; unfold loadCSS; auto.
  destruct (JS.truthy (Some i)); auto.
  constructor. intros [e | ]; auto. constructor.
Qed.

Lemma calm_loadGenericCSS_from : forall files i,
  calm (loadGenericCSS_from files i).
Proof.
  induction files as [ | f rest IH]; intros i; cbn [loadGenericCSS_from];
    [constructor | ].
  apply calm_try_catch; auto.
  apply calm_seq; [apply calm_loadCSS | apply calm_log].
Qed.

Lemma calm_autoLoadPageCSS : calm autoLoadPageCSS.
Proof.
  unfold autoLoadPageCSS. constructor. intros path.
  destruct (pageName_of path) as [name | ]; [ | constructor].
  destruct (JS.truthy (Some name) && negb (String.eqb name "")); [ | constructor].
  apply calm_try_catch; [ | intros; apply calm_log].
  apply calm_seq; [apply calm_loadCSS | apply calm_log].
Qed.

(** A [try] around a function that never rejects changes nothing. *)
Lemma try_catch_transparent : forall os p h w,
  settles false p ->
  fst (drive os (exec (try_catch p h) w)) = fst (drive os (exec p w)).
Proof.
  induction os as [ | o os IH]; intros p h w Hp; rewrite exec_try_catch;
    destruct (settles_exec Hp w) as [Hs _];
    destruct (exec p w) as [w1 [ | e | n k]]; cbn [snd] in Hs;
    try reflexivity; try discriminate.
  rewrite !drive_Waiting. apply IH. apply Hs.
Qed.

(** X11.  The [catch] of [init] is never entered: a run of the combined
    sequence, over any candidate list, on any page and whatever the platform
    reports, writes no [console.error] line. *)
Theorem sequence_logs_no_error : forall files w os,
  error_lines (console (fst (drive os (exec (loadAllCSS_with files) w)))) =
  error_lines (console w).
Proof.
  intros files w os. unfold loadAllCSS_with.
  rewrite try_catch_transparent.
  - set (body := (loadGenericCSS_from files 0 ;;
                  autoLoadPageCSS ;;
                  Console LogLevel ["CSS loading complete"] Ret)%prog).
    assert (Hc : calm body).
    { apply calm_seq; [apply calm_loadGenericCSS_from | ].
      apply calm_seq; [apply calm_autoLoadPageCSS | apply calm_log]. }
    destruct (calm_exec Hc w) as [A B].
    destruct (exec body w) as [w1 s1]. cbn [fst snd] in *.
    now rewrite (calm_drive os w1 s1 B).
  - apply settles_seq; [apply settles_loadGenericCSS_from | ].
    apply settles_seq; [apply settles_autoLoadPageCSS | repeat constructor].
Qed.

(* ------------------------------------------------------------------ *)
(** ** Two calls of [init] *)

Lemma exec_loadAllCSS_first : forall w,
  getElementById (generic_id 0) (document w) = None ->
  exists k,
    exec loadAllCSS w =
    (appendChild (link_element "./style.css" (Some (generic_id 0))) w,
     Waiting (List.length (document w)) k).
Proof.
  intros w Hg. unfold loadAllCSS, loadAllCSS_with, commonCSSFiles.
  rewrite exec_try_catch, exec_seq, exec_loadGenericCSS_from_cons.
  unfold already_loaded at 1. rewrite Hg, andb_false_r.
  eexists. reflexivity.
Qed.

Lemma exec_loadAllCSS_second : forall w name,
  already_loaded (Some (generic_id 0)) (document w) = true ->
  pageName_of (pathname w) = Some name -> name <> EmptyString ->
  getElementById ("page-css-" ++ name)%string (document w) = None ->
  exists k,
    exec loadAllCSS w =
    (appendChild (page_link name)
       (write_console LogLevel ["Generic CSS loaded: style.css"] w),
     Waiting (List.length (document w)) k).
Proof.
  intros w name Hg Hn Hne Hp. unfold loadAllCSS, loadAllCSS_with, commonCSSFiles.
  rewrite exec_try_catch, exec_seq, exec_loadGenericCSS_from_cons, Hg.
  set (w1 := write_console _ _ w).
  assert (Hn1 : pageName_of (pathname w1) = Some name) by exact Hn.
  rewrite exec_seq, (exec_autoLoadPageCSS_named w1 Hn1 Hne).
  rewrite exec_try_catch, exec_seq, loadCSS_unfold.
  assert (Hp1 : getElementById ("page-css-" ++ name)%string (document w1) = None)
    by exact Hp.
  rewrite (page_id_absent_not_loaded _ _ Hp1), exec_insert_link.
  eexists. reflexivity.
Qed.

(** X10.  The one-at-a-time order holds within one call of [init], not
    across two.  After two calls on a loading page, [DOMContentLoaded]
    starts the sequence twice: the first run inserts the generic link and
    waits; the second finds that identifier, logs [Generic CSS loaded]
    although nothing has loaded yet, and inserts the page link at once.
    Both links are then pending together. *)
Theorem init_twice_overlaps : forall w name,
  quiescent w -> readyState w = Loading ->
  pageName_of (pathname w) = Some name -> name <> EmptyString ->
  getElementById (generic_id 0) (document w) = None ->
  getElementById ("page-css-" ++ name)%string (document w) = None ->
  let w2 := run [Api CallInit; Api CallInit; Platform DOMContentLoaded] w in
  document w2 =
    document w ++
    [link_element "./style.css" (Some (generic_id 0)); page_link name] /\
  console w2 =
    console w ++ [(LogLevel, ["Generic CSS loaded: style.css"])] /\
  map fst (waiting w2) =
    [List.length (document w); S (List.length (document w))].
Proof.
  intros w name [Hl Hw] HL Hn Hne Hg Hp w2. subst w2.
  unfold run. cbn [fold_left act api_prog].
  assert (E1 : forall w', readyState w' = Loading ->
                          start init w' = add_listener loadAllCSS w').
  { intros w' H. unfold start. rewrite exec_init, H. reflexivity. }
  rewrite (E1 w HL), (E1 (add_listener loadAllCSS w) HL).
  unfold fire. cbn [readyState add_listener]. rewrite HL.
  cbn [is_loading listeners add_listener]. rewrite Hl.
  unfold dispatch. cbn [app fold_left].
  set (w0 := set_readyState Interactive _).
  destruct (@exec_loadAllCSS_first w0 Hg) as [k1 E].
  assert (S1 : start loadAllCSS w0 =
               set_waiting (waiting w0 ++ [(List.length (document w0), k1)])
                 (appendChild
                    (link_element "./style.css" (Some (generic_id 0))) w0))
    by (unfold start; rewrite E; reflexivity).
  rewrite S1. set (w1 := set_waiting _ _).
  destruct (@exec_loadAllCSS_second w1 name) as [k2 E2]; auto.
  { apply generic_link_found. }
  { subst w1 w0. cbn [document set_waiting appendChild set_readyState
                      add_listener].
    apply getElementById_app_None; [exact Hp | apply page_id_not_generic]. }
  assert (S2 : start loadAllCSS w1 =
               set_waiting (waiting w1 ++ [(List.length (document w1), k2)])
                 (appendChild (page_link name)
                    (write_console LogLevel ["Generic CSS loaded: style.css"]
                       w1)))
    by (unfold start; rewrite E2; reflexivity).
  rewrite S2. subst w1 w0.
  cbn [document console waiting set_waiting appendChild write_console
       set_readyState add_listener].
  rewrite Hw, <- app_assoc, length_app. cbn [app map fst List.length].
  repeat split. f_equal. f_equal. lia.
Qed.

Lemma init_twice_overlaps_witness :
  List.length
    (waiting (run [Api CallInit; Api CallInit; Platform DOMContentLoaded]
                  (blank_page Loading "/x/index.html"))) = 2.
Proof.
  pose proof (@init_twice_overlaps (blank_page Loading "/x/index.html") "index"
                (conj eq_refl eq_refl) eq_refl eq_refl
                ltac:(discriminate) eq_refl eq_refl) as H.
  destruct H as [_ [_ H]].
  rewrite <- (length_map fst), H. reflexivity.
Defined.
